(** * Graphics_Engine: the geometry and rasterization core of GraphicsCore.h

    A shallow embedding of [src/Editor_window/GraphicsCore.h]:
    - [vec3d] and [vec3d::projectTo2D];
    - [triangle];
    - [Sphere] with [generateVertices], [generateIndices], [rotate],
      [getTriangles] and its constructor;
    - [RenderingEngine::DrawPixel] and [RenderingEngine::DrawLine];
    - [RenderingEngine]'s constructor, [addObject], [DrawTriangle], the
      case [WM_TIMER] of [HandleMessage] and the body of the drawing loop
      of its case [WM_PAINT] (module [Engine]).
    The window class, the message loop, the bitmap handles and the
    destructor are calls into Win32 and are left out.

    Modelling conventions.
    - A C++ [int] is a [Z] between [INT_MIN] and [INT_MAX].  Signed
      overflow is undefined behaviour in C++: every arithmetic operation
      on [int]s is written with its check ([int]), and a function in which
      one of them overflows has no result ([None]).  A counted loop whose
      counter would have to pass [INT_MAX] has no result either.
    - C++ [float] arithmetic is reached through the interface [FloatOps],
      [double] arithmetic through [DoubleOps], and [sin] and [cos]
      through [TrigOps] and [DoubleTrigOps], so that every function of
      the source is written once, with the operations in the order and
      in the type the source applies them.  The instances of the C++
      [float] and [double] are IEEE-754 binary32 and binary64 (modules
      [Binary32] and [Binary64], on the parametric specification of the
      Rocq core library; it has no [sin] and [cos], which stay
      parameters).  The real numbers (module [Ideal], arithmetic without
      rounding) serve for examples only: what is stated of the code is
      stated for every instance or for binary32.
    - [std::vector] is [list]; [push_back] appends at the end and never
      fails for lack of memory; [v[i]] is a partial lookup, [None]
      standing for an access outside the vector.
    - The device context written by [SetPixel] is the sequence of the
      [SetPixel] calls made on it, oldest first.
    - An [Object*] is a position in a heap of Spheres; two equal pointers
      are the same Sphere.
    - The cast [(int)] of a [float] is partial (interface [FloatCast]):
      [None] stands for the cast of an infinity, of a NaN or of a value
      outside [int], which C++ leaves undefined.
    - The thread of [WM_TIMER] is joined before anything else runs, so
      its body is run in place. *)

From Stdlib Require Import ZArith List Lia Bool.
From Stdlib Require Import Reals Lra.
From Stdlib Require Import Floats.SpecFloat.
Import ListNotations.

Set Implicit Arguments.

(** ** Floating-point interface *)

Class FloatOps (F : Type) : Type := {
  of_int : Z -> F;
  fadd : F -> F -> F;
  fsub : F -> F -> F;
  fmul : F -> F -> F;
  fdiv : F -> F -> F;
  fneg : F -> F
}.

(** [sin] and [cos] of a [float], the result stored in a [float]. *)
Class TrigOps (F : Type) : Type := {
  fsin : F -> F;
  fcos : F -> F
}.

(** The C++ [double], as far as the source uses it.  The constant [M_PI]
    is a [double], so an expression it takes part in is evaluated in
    [double]: an [int] or [float] operand is converted
    ([double_of_int], [double_of_float]), and the result is converted to
    [float] ([float_of_double]) by the initialisation or assignment that
    receives it. *)
Class DoubleOps (F : Type) : Type := {
  double : Type;
  double_of_int : Z -> double;
  double_of_float : F -> double;
  float_of_double : double -> F;
  dmul : double -> double -> double;
  ddiv : double -> double -> double;
  M_PI : double
}.

(** [sin] and [cos] of a [double]. *)
Class DoubleTrigOps (F : Type) {dbl : DoubleOps F} : Type := {
  dsin : double -> double;
  dcos : double -> double
}.

Arguments DoubleTrigOps F {dbl}.

Declare Scope fl_scope.
Delimit Scope fl_scope with fl.
Infix "+" := fadd : fl_scope.
Infix "-" := fsub : fl_scope.
Infix "*" := fmul : fl_scope.
Infix "/" := fdiv : fl_scope.
Notation "- a" := (fneg a) : fl_scope.

Definition obind {A B : Type} (o : option A) (k : A -> option B) : option B :=
  match o with
  | Some a => k a
  | None => None
  end.

Notation "x <- o ;; k" := (obind o (fun x => k))
  (at level 61, o at next level, right associativity).

(** ** The type [int] *)

Definition INT_MIN : Z := (- 2 ^ 31)%Z.
Definition INT_MAX : Z := (2 ^ 31 - 1)%Z.

Definition is_int (z : Z) : Prop := (INT_MIN <= z <= INT_MAX)%Z.

(** The result [z] of an operation on [int]s: undefined when it is not an
    [int]. *)
Definition int (z : Z) : option Z :=
  if ((INT_MIN <=? z) && (z <=? INT_MAX))%Z then Some z else None.

(** ** Counted loops

    [for_lt lo hi body s] is [for (int i = lo; i < hi; ++i) body], run on
    the state [s]: the counter ends at [hi], an [int].  [for_le] is the
    loop with the test [i <= hi]: with [hi = INT_MAX] the test holds for
    every [int] and [++i] overflows, so the loop has no result.  Neither
    the counter nor the bound is assigned in a loop body of the source. *)

Fixpoint for_steps {S : Type} (n : nat) (i : Z) (body : Z -> S -> option S)
    (s : S) : option S :=
  match n with
  | O => Some s
  | Datatypes.S n' => s' <- body i s ;; for_steps n' (i + 1) body s'
  end.

Definition for_lt {S : Type} (lo hi : Z) (body : Z -> S -> option S)
    (s : S) : option S :=
  for_steps (Z.to_nat (hi - lo)) lo body s.

Definition for_le {S : Type} (lo hi : Z) (body : Z -> S -> option S)
    (s : S) : option S :=
  if (hi <? INT_MAX)%Z then for_lt lo (hi + 1) body s else None.

(** The counter values of [n] iterations from [i]: [i; i+1; ...; i+n-1]. *)
Fixpoint zrange (i : Z) (n : nat) : list Z :=
  match n with
  | O => []
  | Datatypes.S n' => i :: zrange (i + 1) n'
  end.

(** [v[i]] on a [std::vector], with an [int] index. *)
Definition at_index {A : Type} (v : list A) (i : Z) : option A :=
  if (i <? 0)%Z then None else nth_error v (Z.to_nat i).

(** ** vec3d, triangle and Sphere, over any arithmetic *)

Section Geometry.
Context {F : Type} `{FloatOps F}.

Record vec3d : Type := Vec3d { x : F; y : F; z : F }.

(** The literals [70.0f], [16.0f] and [9.0f] are integers, exact in a
    float; they are written as conversions of these integers. *)
Definition fov : F := of_int 70.
Definition aspectRatio : F := (of_int 16 / of_int 9)%fl.

Definition projectTo2D (this : vec3d) (centerX centerY : Z)
    (scale moveX moveY : F) : vec3d :=
  let projectedX := (x this / (of_int 1 + z this / (fov * scale)))%fl in
  let projectedY := (y this / (of_int 1 + z this / (fov * scale)))%fl in
  let projectedX := (projectedX * aspectRatio)%fl in
  let projectedY := (projectedY * aspectRatio)%fl in
  Vec3d (of_int centerX + projectedX + moveX)%fl
        (of_int centerY - projectedY + moveY)%fl
        (z this).

Record triangle : Type := Triangle { p1 : vec3d; p2 : vec3d; p3 : vec3d }.

Record Sphere : Type := MkSphere {
  radius : F;
  latitudeSteps : Z;
  longitudeSteps : Z;
  vertices : list vec3d;
  triangles : list triangle
}.

Definition set_vertices (s : Sphere) (vs : list vec3d) : Sphere :=
  MkSphere (radius s) (latitudeSteps s) (longitudeSteps s) vs (triangles s).

Definition set_triangles (s : Sphere) (ts : list triangle) : Sphere :=
  MkSphere (radius s) (latitudeSteps s) (longitudeSteps s) (vertices s) ts.

(** [int first = lat * (longitudeSteps + 1) + lon;] *)
Definition first_index (stride lat lon : Z) : option Z :=
  n <- int (stride + 1) ;; m <- int (lat * n) ;; int (m + lon).

(** [int second = first + longitudeSteps + 1;] *)
Definition second_index (stride first : Z) : option Z :=
  m <- int (first + stride) ;; int (m + 1).

(** The body of the inner loop of [generateIndices]: the two indices,
    then the two [push_back]s of one longitude cell. *)
Definition quad (vs : list vec3d) (stride lat lon : Z)
    (ts : list triangle) : option (list triangle) :=
  first <- first_index stride lat lon ;;
  second <- second_index stride first ;;
  a1 <- at_index vs first ;;
  b1 <- at_index vs second ;;
  c1 <- (i <- int (first + 1) ;; at_index vs i) ;;
  let ts := ts ++ [Triangle a1 b1 c1] in
  a2 <- at_index vs second ;;
  b2 <- (i <- int (second + 1) ;; at_index vs i) ;;
  c2 <- (i <- int (first + 1) ;; at_index vs i) ;;
  Some (ts ++ [Triangle a2 b2 c2]).

(** The triangles of one longitude cell, none when the cell has no
    result. *)
Definition cell_triangles (vs : list vec3d) (stride lat lon : Z) : list triangle :=
  match quad vs stride lat lon [] with
  | Some ts => ts
  | None => []
  end.

(** The triangle list [generateIndices] builds from a vertex buffer and
    the step counts. *)
Definition index_triangles (vs : list vec3d) (latSteps lonSteps : Z)
    : option (list triangle) :=
  for_lt 0 latSteps (fun lat ts =>
    for_lt 0 lonSteps (fun lon ts => quad vs lonSteps lat lon ts) ts)
    [].

Definition generateIndices (s : Sphere) : option Sphere :=
  ts <- index_triangles (vertices s) (latitudeSteps s) (longitudeSteps s) ;;
  Some (set_triangles s ts).

Definition getTriangles (s : Sphere) : list triangle := triangles s.

Section Trig.
Context `{TrigOps F} {dbl : DoubleOps F}.

(** [float theta = M_PI * lat / latitudeSteps;] *)
Definition polar (lat latSteps : Z) : F :=
  float_of_double
    (ddiv (dmul M_PI (double_of_int lat)) (double_of_int latSteps)).

(** [float phi = 2 * M_PI * lon / longitudeSteps;] *)
Definition azimuth (lon lonSteps : Z) : F :=
  float_of_double
    (ddiv (dmul (dmul (double_of_int 2) M_PI) (double_of_int lon))
       (double_of_int lonSteps)).

(** The vertex [generateVertices] pushes for the pair [(lat, lon)]. *)
Definition sphere_point (r : F) (latSteps lonSteps lat lon : Z) : vec3d :=
  let theta := polar lat latSteps in
  let phi := azimuth lon lonSteps in
  Vec3d (r * fsin theta * fcos phi)%fl
        (r * fcos theta)%fl
        (r * fsin theta * fsin phi)%fl.

(** [vertices.clear()], then the two nested loops. *)
Definition generateVertices (s : Sphere) : option Sphere :=
  vs <- for_le 0 (latitudeSteps s) (fun lat vs =>
          let theta := polar lat (latitudeSteps s) in
          let sinTheta := fsin theta in
          let cosTheta := fcos theta in
          for_le 0 (longitudeSteps s) (fun lon vs =>
            let phi := azimuth lon (longitudeSteps s) in
            let sinPhi := fsin phi in
            let cosPhi := fcos phi in
            let x' := (radius s * sinTheta * cosPhi)%fl in
            let y' := (radius s * cosTheta)%fl in
            let z' := (radius s * sinTheta * sinPhi)%fl in
            Some (vs ++ [Vec3d x' y' z'])) vs)
          [] ;;
  Some (set_vertices s vs).

(** The constructor: members initialised, both vectors empty, then
    [generateVertices(); generateIndices();]. *)
Definition Sphere_new (r : F) (latSteps lonSteps : Z) : option Sphere :=
  s <- generateVertices (MkSphere r latSteps lonSteps [] []) ;;
  generateIndices s.

(** The body of the loop of [rotate], on one vertex. *)
Definition rotate_vertex (cosX sinX cosY sinY cosZ sinZ : F)
    (vertex : vec3d) : vec3d :=
  let y' := (y vertex * cosX - z vertex * sinX)%fl in
  let z' := (y vertex * sinX + z vertex * cosX)%fl in
  let vertex := Vec3d (x vertex) y' z' in
  let x' := (x vertex * cosY + z vertex * sinY)%fl in
  let z' := (- x vertex * sinY + z vertex * cosY)%fl in
  let vertex := Vec3d x' (y vertex) z' in
  let x' := (x vertex * cosZ - y vertex * sinZ)%fl in
  let y' := (x vertex * sinZ + y vertex * cosZ)%fl in
  Vec3d x' y' (z vertex).

Definition rotate_vertices (angleX angleY angleZ : F)
    (vs : list vec3d) : list vec3d :=
  let cosX := fcos angleX in let sinX := fsin angleX in
  let cosY := fcos angleY in let sinY := fsin angleY in
  let cosZ := fcos angleZ in let sinZ := fsin angleZ in
  map (rotate_vertex cosX sinX cosY sinY cosZ sinZ) vs.

Definition rotate (s : Sphere) (angleX angleY angleZ : F) : option Sphere :=
  generateIndices
    (set_vertices s (rotate_vertices angleX angleY angleZ (vertices s))).

(** A sequence of [rotate] calls, each given its three angles. *)
Fixpoint rotate_calls (s : Sphere) (calls : list (F * F * F)) : option Sphere :=
  match calls with
  | [] => Some s
  | (angleX, angleY, angleZ) :: rest =>
    s' <- rotate s angleX angleY angleZ ;; rotate_calls s' rest
  end.

(** The rotations about the coordinate axes, as the source computes them:
    each is one pair of assignments of the loop body of [rotate]. *)
Definition rotX (a : F) (v : vec3d) : vec3d :=
  Vec3d (x v) (y v * fcos a - z v * fsin a)%fl (y v * fsin a + z v * fcos a)%fl.

Definition rotY (a : F) (v : vec3d) : vec3d :=
  Vec3d (x v * fcos a + z v * fsin a)%fl (y v)
        (- x v * fsin a + z v * fcos a)%fl.

Definition rotZ (a : F) (v : vec3d) : vec3d :=
  Vec3d (x v * fcos a - y v * fsin a)%fl (x v * fsin a + y v * fcos a)%fl (z v).

Definition rotXYZ (aX aY aZ : F) (v : vec3d) : vec3d :=
  rotZ aZ (rotY aY (rotX aX v)).

(** The rotations of a sequence of calls, applied one after the other. *)
Definition compose_rotations (calls : list (F * F * F)) (v : vec3d) : vec3d :=
  fold_left (fun v call =>
    let '(aX, aY, aZ) := call in rotXYZ aX aY aZ v) calls v.

(** States a [Sphere] goes through when it is constructed and then only
    rotated. *)
Inductive reachable : Sphere -> Prop :=
| reach_new (r : F) (latSteps lonSteps : Z) (s : Sphere) :
    Sphere_new r latSteps lonSteps = Some s -> reachable s
| reach_rotate (s s' : Sphere) (angleX angleY angleZ : F) :
    reachable s -> rotate s angleX angleY angleZ = Some s' -> reachable s'.

(** States a [Sphere] goes through under any use of its public members:
    the constructor, then [generateVertices], [generateIndices] and
    [rotate] in any order. *)
Inductive public_state : Sphere -> Prop :=
| public_new (r : F) (latSteps lonSteps : Z) (s : Sphere) :
    Sphere_new r latSteps lonSteps = Some s -> public_state s
| public_generateVertices (s s' : Sphere) :
    public_state s -> generateVertices s = Some s' -> public_state s'
| public_generateIndices (s s' : Sphere) :
    public_state s -> generateIndices s = Some s' -> public_state s'
| public_rotate (s s' : Sphere) (angleX angleY angleZ : F) :
    public_state s -> rotate s angleX angleY angleZ = Some s' -> public_state s'.

End Trig.

(** Step counts with which the constructor completes: the loops of
    [generateVertices] end, and the indices [generateIndices] computes,
    the largest of which is [(latSteps + 1) * (lonSteps + 1) - 1], are
    [int]s. *)
Definition constructible (latSteps lonSteps : Z) : Prop :=
  (latSteps < INT_MAX)%Z /\
  (0 <= latSteps -> lonSteps < INT_MAX)%Z /\
  (1 <= latSteps -> 1 <= lonSteps ->
   (latSteps + 1) * (lonSteps + 1) <= INT_MAX + 1)%Z.

(** The vertex buffer has one entry per (latitude, longitude) pair, for
    step counts with which the constructor completes. *)
Definition well_sized (s : Sphere) : Prop :=
  length (vertices s)
  = (Z.to_nat (latitudeSteps s + 1) * Z.to_nat (longitudeSteps s + 1))%nat /\
  constructible (latitudeSteps s) (longitudeSteps s).

End Geometry.

Arguments vec3d F : clear implicits.
Arguments triangle F : clear implicits.
Arguments Sphere F : clear implicits.

(** ** IEEE-754 binary32: the C++ [float] *)

Module Binary32.

Definition prec : Z := 24.
Definition emax : Z := 128.

Definition float : Type := spec_float.

(** Conversion of an [int], rounding to nearest, ties to even. *)
Definition float_of_int (n : Z) : float := binary_normalize prec emax n 0 false.

#[export] Instance ops : FloatOps float := {
  of_int := float_of_int;
  fadd := SFadd prec emax;
  fsub := SFsub prec emax;
  fmul := SFmul prec emax;
  fdiv := SFdiv prec emax;
  fneg := SFopp
}.

(** The C++ comparison [a == b] on floats. *)
Definition feq (a b : float) : bool := SFeqb a b.

(** Neither a zero nor a NaN. *)
Definition nonzero_number (a : float) : bool :=
  match a with
  | S754_finite _ _ _ | S754_infinity _ => true
  | _ => false
  end.

Definition zero : float := S754_zero false.

End Binary32.

(** ** IEEE-754 binary64: the C++ [double] *)

Module Binary64.

Definition prec : Z := 53.
Definition emax : Z := 1024.

(** Conversion of an [int]: exact, an [int] has at most 31 bits. *)
Definition double_of_int (n : Z) : spec_float :=
  binary_normalize prec emax n 0 false.

(** Conversion of a [float]: exact, the same number in the form of
    binary64. *)
Definition double_of_float (a : Binary32.float) : spec_float :=
  match a with
  | S754_finite s m e => binary_normalize prec emax (cond_Zopp s (Z.pos m)) e s
  | _ => a
  end.

(** Conversion to [float]: rounding to nearest, ties to even; an
    infinity, a NaN and a zero stay what they are. *)
Definition float_of_double (a : spec_float) : Binary32.float :=
  match a with
  | S754_finite s m e =>
    binary_normalize Binary32.prec Binary32.emax (cond_Zopp s (Z.pos m)) e s
  | _ => a
  end.

(** [3.14159265358979323846] as a [double]: [0x400921FB54442D18], that is
    [7074237752028440 * 2^-51]. *)
Definition M_PI : spec_float := S754_finite false 7074237752028440 (-51).

#[global] Instance dbl : DoubleOps Binary32.float := {
  double := spec_float;
  double_of_int := double_of_int;
  double_of_float := double_of_float;
  float_of_double := float_of_double;
  dmul := SFmul prec emax;
  ddiv := SFdiv prec emax;
  M_PI := M_PI
}.

End Binary64.

(** ** Real numbers: arithmetic without rounding, for examples *)

Module Ideal.

#[export] Instance ops : FloatOps R := {
  of_int := IZR;
  fadd := Rplus;
  fsub := Rminus;
  fmul := Rmult;
  fdiv := Rdiv;
  fneg := Ropp
}.

#[export] Instance trig : TrigOps R := {
  fsin := sin;
  fcos := cos
}.

#[export] Instance dbl : DoubleOps R := {
  double := R;
  double_of_int := IZR;
  double_of_float := fun a => a;
  float_of_double := fun a => a;
  dmul := Rmult;
  ddiv := Rdiv;
  M_PI := PI
}.

#[export] Instance dtrig : DoubleTrigOps R := {
  dsin := sin;
  dcos := cos
}.

End Ideal.

(** ** RenderingEngine: DrawPixel and DrawLine *)

Definition COLORREF : Type := Z.

(** A device context, as the [SetPixel] calls made on it. *)
Definition HDC : Type := list (Z * Z * COLORREF).

Definition SetPixel (hdc : HDC) (x y : Z) (color : COLORREF) : HDC :=
  hdc ++ [(x, y, color)].

Definition DrawPixel (hdc : HDC) (x y : Z) (color : COLORREF) : HDC :=
  SetPixel hdc x y color.

(** The [while (true)] loop of [DrawLine]; [None] when an operation
    overflows or when [fuel] iterations did not reach the [break]. *)
Fixpoint DrawLine_loop (fuel : nat) (hdc : HDC) (x1 y1 x2 y2 : Z)
    (dx sx dy sy err : Z) (color : COLORREF) : option HDC :=
  match fuel with
  | O => None
  | S fuel' =>
    let hdc := DrawPixel hdc x1 y1 color in
    if ((x1 =? x2) && (y1 =? y2))%Z then Some hdc
    else
      e2 <- int (2 * err) ;;
      st <- (if (e2 >=? dy)%Z
             then err' <- int (err + dy) ;; x1' <- int (x1 + sx) ;;
                  Some (err', x1')
             else Some (err, x1)) ;;
      let '(err, x1) := st in
      st <- (if (e2 <=? dx)%Z
             then err' <- int (err + dx) ;; y1' <- int (y1 + sy) ;;
                  Some (err', y1')
             else Some (err, y1)) ;;
      let '(err, y1) := st in
      DrawLine_loop fuel' hdc x1 y1 x2 y2 dx sx dy sy err color
  end.

Definition DrawLine (fuel : nat) (hdc : HDC) (x1 y1 x2 y2 : Z)
    (color : COLORREF) : option HDC :=
  dx <- (d <- int (x2 - x1) ;; int (Z.abs d)) ;;
  let sx := (if x1 <? x2 then 1 else -1)%Z in
  dy <- (d <- int (y2 - y1) ;; a <- int (Z.abs d) ;; int (- a)) ;;
  let sy := (if y1 <? y2 then 1 else -1)%Z in
  err <- int (dx + dy) ;;
  DrawLine_loop fuel hdc x1 y1 x2 y2 dx sx dy sy err color.

(** The pixels of a walk from [(x, y)] to [(x2, y2)] in which every move
    adds [sx] to [x], or [sy] to [y], or both. *)
Inductive line_path (sx sy : Z) (color : COLORREF) (x2 y2 : Z)
    : Z -> Z -> list (Z * Z * COLORREF) -> Prop :=
| path_end : line_path sx sy color x2 y2 x2 y2 [(x2, y2, color)]
| path_step (x y x' y' : Z) (rest : list (Z * Z * COLORREF)) :
    (x' = x + sx \/ x' = x)%Z ->
    (y' = y + sy \/ y' = y)%Z ->
    (x' <> x \/ y' <> y) ->
    line_path sx sy color x2 y2 x' y' rest ->
    line_path sx sy color x2 y2 x y ((x, y, color) :: rest).

(** Iterations that suffice from [(x1, y1)] to [(x2, y2)]. *)
Definition line_fuel (x1 y1 x2 y2 : Z) : nat :=
  S (Z.to_nat (Z.abs (x2 - x1) + Z.abs (y2 - y1))).

(** A pixel of the walk towards [(x2, y2)]: [a] moves in x and [b] moves
    in y away from the endpoint, with the cross product of the two
    remaining displacements at most half the longer side. *)
Definition on_track (x2 y2 dx sx dy sy : Z) (p : Z * Z * COLORREF) : Prop :=
  exists a b : Z,
    fst (fst p) = (x2 - sx * a)%Z /\ snd (fst p) = (y2 - sy * b)%Z /\
    (0 <= a <= dx)%Z /\ (0 <= b <= - dy)%Z /\
    (- Z.max dx (- dy) <= 2 * (dx * b + dy * a) <= Z.max dx (- dy))%Z.

(** A pixel inside the bounding box of the two endpoints and within half
    a pixel of the segment, measured along the shorter side: twice the
    cross product of [p - p1] and [p2 - p1] is at most the longer side. *)
Definition near_line (x1 y1 x2 y2 : Z) (p : Z * Z * COLORREF) : Prop :=
  let x := fst (fst p) in
  let y := snd (fst p) in
  (2 * Z.abs ((x2 - x1) * (y - y1) - (y2 - y1) * (x - x1))
   <= Z.max (Z.abs (x2 - x1)) (Z.abs (y2 - y1)))%Z /\
  (Z.min x1 x2 <= x <= Z.max x1 x2)%Z /\
  (Z.min y1 y2 <= y <= Z.max y1 y2)%Z.


(** ** RenderingEngine: casts, DrawTriangle and the timer tick *)

(** [(int) a]: the float truncated toward zero; [None] when the truncated
    value is not an [int] (a NaN, an infinity, a value out of range), where
    the conversion is undefined. *)
Class FloatCast (F : Type) : Type := {
  to_int : F -> option Z
}.

(** [a > b] on floats. *)
Class FloatCmp (F : Type) : Type := {
  fgt : F -> F -> bool
}.

(** The macro [RGB] of the Windows headers: three bytes packed into a
    [COLORREF], red lowest. *)
Definition RGB (r g b : Z) : COLORREF :=
  Z.lor (Z.lor (r mod 256) (Z.shiftl (g mod 256) 8)) (Z.shiftl (b mod 256) 16).

(** [l[p] := a], nothing outside the list. *)
Fixpoint store {A : Type} (l : list A) (p : nat) (a : A) : list A :=
  match l, p with
  | [], _ => []
  | _ :: t, O => a :: t
  | h :: t, S p' => h :: store t p' a
  end.

Module Engine.
Section Engine.
Context {F : Type} `{FloatOps F}.

(** The engine; [objects] holds pointers, here positions in a heap of
    Spheres that the engine does not own.  The window and bitmap handles
    are left out. *)
Record RenderingEngine : Type := MkEngine {
  WIDTH : Z;
  HEIGHT : Z;
  centerX : Z;
  centerY : Z;
  angleX : F;
  angleY : F;
  angleZ : F;
  moveX : F;
  moveY : F;
  degree : F;
  r : Z;
  objects : list nat
}.

Definition Heap : Type := list (Sphere F).

(** The constructor; [/] on [int] truncates. *)
Definition RenderingEngine_new (width height : Z) : RenderingEngine :=
  MkEngine width height (Z.quot width 2) (Z.quot height 2)
    (of_int 0) (of_int 0) (of_int 0) (of_int 0) (of_int 0) (of_int 0)
    400 [].

Definition addObject (e : RenderingEngine) (obj : nat) : RenderingEngine :=
  MkEngine (WIDTH e) (HEIGHT e) (centerX e) (centerY e)
    (angleX e) (angleY e) (angleZ e) (moveX e) (moveY e) (degree e) (r e)
    (objects e ++ [obj]).

Section Draw.
Context `{FloatCast F}.

(** The three [DrawLine] calls, each after the casts of its arguments. *)
Definition DrawTriangle (fuel : nat) (hdc : HDC) (p1 p2 p3 : vec3d F)
    (color : COLORREF) : option HDC :=
  x1 <- to_int (x p1) ;; y1 <- to_int (y p1) ;;
  x2 <- to_int (x p2) ;; y2 <- to_int (y p2) ;;
  hdc <- DrawLine fuel hdc x1 y1 x2 y2 color ;;
  x1 <- to_int (x p2) ;; y1 <- to_int (y p2) ;;
  x2 <- to_int (x p3) ;; y2 <- to_int (y p3) ;;
  hdc <- DrawLine fuel hdc x1 y1 x2 y2 color ;;
  x1 <- to_int (x p3) ;; y1 <- to_int (y p3) ;;
  x2 <- to_int (x p1) ;; y2 <- to_int (y p1) ;;
  DrawLine fuel hdc x1 y1 x2 y2 color.

(** The body of the loop over the triangles of an object in [WM_PAINT],
    on the device context that loop draws to. *)
Definition paint_triangle (fuel : nat) (e : RenderingEngine) (hdc : HDC)
    (tri : triangle F) : option HDC :=
  let q1 := projectTo2D (p1 tri) (centerX e) (centerY e) (of_int 8)
              (moveX e) (moveY e) in
  let q2 := projectTo2D (p2 tri) (centerX e) (centerY e) (of_int 8)
              (moveX e) (moveY e) in
  let q3 := projectTo2D (p3 tri) (centerX e) (centerY e) (of_int 8)
              (moveX e) (moveY e) in
  DrawTriangle fuel hdc q1 q2 q3 (RGB 0 0 255).

End Draw.

Section Timer.
Context `{TrigOps F} `{FloatCmp F} {dbl : DoubleOps F}
        {dtrig : DoubleTrigOps F}.

(** [degree * M_PI / 180.0f], a [double]. *)
Definition radians (degree : F) : double :=
  ddiv (dmul (double_of_float degree) M_PI) (double_of_float (of_int 180)).

(** [moveX = r * cos(degree * M_PI / 180.0f);] *)
Definition orbit_cos (r : Z) (degree : F) : F :=
  float_of_double (dmul (double_of_int r) (dcos (radians degree))).

(** [moveY = r * sin(degree * M_PI / 180.0f);] *)
Definition orbit_sin (r : Z) (degree : F) : F :=
  float_of_double (dmul (double_of_int r) (dsin (radians degree))).

(** [degree += 3; if (degree > 360) degree = 0;] *)
Definition advance_degree (d : F) : F :=
  let d := (d + of_int 3)%fl in
  if fgt d (of_int 360) then of_int 0 else d.

(** The loop over the objects in [WM_TIMER]: each pointer is followed and
    its Sphere rotated in place. *)
Fixpoint rotate_objects (objs : list nat) (heap : Heap)
    (aX aY aZ : F) : option Heap :=
  match objs with
  | [] => Some heap
  | obj :: rest =>
    s <- nth_error heap obj ;;
    s' <- rotate s aX aY aZ ;;
    rotate_objects rest (store heap obj s') aX aY aZ
  end.

(** [WM_TIMER]; the literal [0.01f] is the float nearest to 1/100. *)
Definition HandleMessage_WM_TIMER (e : RenderingEngine) (heap : Heap)
    : option (RenderingEngine * Heap) :=
  let angleX' := (angleX e + of_int 1 / of_int 100)%fl in
  let angleY' := (angleY e + of_int 1 / of_int 100)%fl in
  let angleZ' := (angleZ e + of_int 1 / of_int 100)%fl in
  let degree' := advance_degree (degree e) in
  let moveX' := orbit_cos (r e) degree' in
  let moveY' := orbit_sin (r e) degree' in
  heap' <- rotate_objects (objects e) heap angleX' angleY' angleZ' ;;
  Some (MkEngine (WIDTH e) (HEIGHT e) (centerX e) (centerY e)
          angleX' angleY' angleZ' moveX' moveY' degree' (r e) (objects e),
        heap').

(** [n] timer ticks in a row. *)
Fixpoint ticks (n : nat) (e : RenderingEngine) (heap : Heap)
    : option (RenderingEngine * Heap) :=
  match n with
  | O => Some (e, heap)
  | S n' =>
    st <- HandleMessage_WM_TIMER e heap ;; ticks n' (fst st) (snd st)
  end.

(** The value of each angle after [n] ticks of a fresh engine, and the
    angles the [rotate] calls of its first [n] ticks are given. *)
Definition tick_angle (n : nat) : F :=
  Nat.iter n (fun a => (a + of_int 1 / of_int 100)%fl) (of_int 0).

Definition tick_angles (n : nat) : list (F * F * F) :=
  map (fun k => (tick_angle k, tick_angle k, tick_angle k)) (seq 1 n).

End Timer.
End Engine.

Arguments RenderingEngine F : clear implicits.
Arguments Heap F : clear implicits.

End Engine.

Module Binary32Engine.
Import Binary32.

(** Truncation toward zero of a binary32 value, in the range of [int]. *)
Definition int_of_float (a : float) : option Z :=
  match a with
  | S754_zero _ => Some 0%Z
  | S754_finite s m e =>
    let magnitude := Z.shiftl (Z.pos m) e in
    let n := if s then (- magnitude)%Z else magnitude in
    if ((INT_MIN <=? n) && (n <=? INT_MAX))%Z then Some n else None
  | S754_infinity _ | S754_nan => None
  end.

#[export] Instance cast : FloatCast float := {
  to_int := int_of_float
}.

#[export] Instance cmp : FloatCmp float := {
  fgt a b := SFltb b a
}.

End Binary32Engine.

Module IdealEngine.
Import Ideal.

#[export] Instance cmp : FloatCmp R := {
  fgt a b := if Rlt_dec b a then true else false
}.

End IdealEngine.



Module Binary32Aux.
Import Binary32.

(** An infinity or a NaN. *)
Definition non_finite (a : float) : bool :=
  match a with
  | S754_infinity _ | S754_nan => true
  | _ => false
  end.

(** The same float, bit for bit. *)
Definition float_same (a b : float) : bool :=
  match a, b with
  | S754_zero s, S754_zero s' => Bool.eqb s s'
  | S754_infinity s, S754_infinity s' => Bool.eqb s s'
  | S754_nan, S754_nan => true
  | S754_finite s m e, S754_finite s' m' e' =>
    (Bool.eqb s s' && Pos.eqb m m' && Z.eqb e e')%bool
  | _, _ => false
  end.

(** A zero or a finite number in canonical form, as the operations of
    binary32 return them. *)
Definition finite_valid (a : float) : bool :=
  match a with
  | S754_zero _ => true
  | S754_finite _ m e => bounded prec emax m e
  | _ => false
  end.

(** Equal numbers: two zeros, of any signs, or twice the same finite
    number in canonical form. *)
Definition same_number (a b : float) : Prop :=
  finite_valid a = true /\ finite_valid b = true /\
  ((exists s s', a = S754_zero s /\ b = S754_zero s') \/ a = b).


End Binary32Aux.

(** A scene the engine can tick: every Sphere of the heap is in a state
    its public members can reach, and every pointer of the engine points
    into the heap. *)
Definition valid_scene {F : Type} `{FloatOps F} `{TrigOps F}
    {dbl : DoubleOps F}
    (e : Engine.RenderingEngine F) (heap : Engine.Heap F) : Prop :=
  Forall public_state heap /\
  Forall (fun p => (p < length heap)%nat) (Engine.objects e).

Module Binary32Trig.
Import Binary32.

(** [sin] and [cos] are not operations of binary32 or binary64.  A
    stand-in for where an instance is needed: it is right at the angle 0
    ([sin 0 = 0], [cos 0 = 1]) and its other values do not matter. *)
Definition stand_in : TrigOps float := {|
  fsin := fun _ => zero;
  fcos := fun _ => float_of_int 1
|}.

Definition double_stand_in : DoubleTrigOps float := {|
  dsin := fun _ => S754_zero false;
  dcos := fun _ => Binary64.double_of_int 1
|}.

End Binary32Trig.

(* ================================================================== *)
(** * Theorems *)

(** ** projectTo2D *)

Section ProjectGeneric.
Context {F : Type} `{FloatOps F}.

(** The value [projectTo2D] returns, with the operations of the
    arithmetic at hand, whatever that arithmetic is. *)
Lemma projectTo2D_unfold (p : vec3d F) (centerX centerY : Z)
    (scale moveX moveY : F) :
  projectTo2D p centerX centerY scale moveX moveY =
  Vec3d
    (of_int centerX
       + (x p / (of_int 1 + z p / (of_int 70 * scale))) * (of_int 16 / of_int 9)
       + moveX)%fl
    (of_int centerY
       - (y p / (of_int 1 + z p / (of_int 70 * scale))) * (of_int 16 / of_int 9)
       + moveY)%fl
    (z p).
Proof. reflexivity. Qed.

End ProjectGeneric.

Module Binary32Facts.
Import Binary32.

Lemma iter_pos_invariant {A : Type} (P : A -> Prop) (f : A -> A) :
  (forall a, P a -> P (f a)) ->
  forall (n : positive) (a : A), P a -> P (iter_pos f n a).
Proof.
  intros Hf n; induction n as [n IH | n IH | ]; intros a Ha; simpl; auto.
Qed.

Lemma shr_1_nonneg (mrs : shr_record) :
  (0 <= shr_m mrs)%Z -> (0 <= shr_m (shr_1 mrs))%Z.
Proof.
  destruct mrs as [m r s]; simpl.
  destruct m as [ | [q | q | ] | [q | q | ] ]; simpl; lia.
Qed.

Lemma shr_nonneg (mrs : shr_record) (e n : Z) :
  (0 <= shr_m mrs)%Z -> (0 <= shr_m (fst (shr mrs e n)))%Z.
Proof.
  intros Hm; destruct n as [ | n | n ]; simpl; auto.
  apply iter_pos_invariant with (P := fun r => (0 <= shr_m r)%Z); auto.
  apply shr_1_nonneg.
Qed.

Lemma shr_fexp_nonneg (m e : Z) (l : location) :
  (0 <= m)%Z -> (0 <= shr_m (fst (shr_fexp prec emax m e l)))%Z.
Proof.
  intros Hm; unfold shr_fexp; apply shr_nonneg.
  destruct l as [ | [ | | ] ]; simpl; assumption.
Qed.

Lemma round_nearest_even_nonneg (m : Z) (l : location) :
  (0 <= m)%Z -> (0 <= round_nearest_even m l)%Z.
Proof.
  intros Hm; destruct l as [ | [ | | ] ]; simpl; try lia.
  destruct (Z.even m); lia.
Qed.

Lemma binary_round_aux_not_nan (s : bool) (m e : Z) (l : location) :
  (0 <= m)%Z -> binary_round_aux prec emax s m e l <> S754_nan.
Proof.
  intros Hm; unfold binary_round_aux.
  pose proof (shr_fexp_nonneg e l Hm) as H1.
  destruct (shr_fexp prec emax m e l) as [mrs1 e1]; simpl in H1.
  pose proof (shr_fexp_nonneg e1 loc_Exact
                (round_nearest_even_nonneg (loc_of_shr_record mrs1) H1)) as H2.
  destruct (shr_fexp prec emax _ e1 loc_Exact) as [mrs2 e2]; simpl in H2.
  destruct (shr_m mrs2) as [ | q | q ]; try discriminate; try lia.
  destruct (e2 <=? emax - prec)%Z; discriminate.
Qed.

(** Converting an [int] never gives a NaN. *)
Lemma float_of_int_not_nan (n : Z) : float_of_int n <> S754_nan.
Proof.
  unfold float_of_int, binary_normalize, binary_round.
  destruct n as [ | q | q ]; try discriminate;
    destruct (shl_align q 0 _) as [mz ez];
    apply binary_round_aux_not_nan; lia.
Qed.

Lemma feq_refl (a : float) : a <> S754_nan -> feq a a = true.
Proof.
  intros Ha; unfold feq, SFeqb.
  destruct a as [s | s | | s m e]; try congruence; simpl.
  - reflexivity.
  - destruct s; reflexivity.
  - rewrite Z.compare_refl, Pos.compare_cont_refl; destruct s; reflexivity.
Qed.

(** Adding or subtracting a zero gives a float equal to the first
    operand. *)
Lemma fadd_zero_feq (a : float) (s : bool) :
  a <> S754_nan -> feq (a + S754_zero s)%fl a = true.
Proof.
  intros Ha; destruct a as [sa | sa | | sa m e]; try congruence.
  - destruct sa, s; reflexivity.
  - apply feq_refl; discriminate.
  - apply feq_refl; discriminate.
Qed.

Lemma fsub_zero_feq (a : float) (s : bool) :
  a <> S754_nan -> feq (a - S754_zero s)%fl a = true.
Proof.
  intros Ha; destruct a as [sa | sa | | sa m e]; try congruence.
  - destruct sa, s; reflexivity.
  - apply feq_refl; discriminate.
  - apply feq_refl; discriminate.
Qed.

Lemma feq_fadd_zero (a b : float) (s : bool) :
  feq a b = true -> feq (a + S754_zero s)%fl b = true.
Proof.
  intros Hab.
  destruct a as [sa | sa | | sa m e]; try discriminate.
  - destruct sa, s; exact Hab.
  - exact Hab.
  - exact Hab.
Qed.

(** *** Products that do not underflow *)

Local Open Scope Z_scope.

Lemma digits2_pos_size (p : positive) : digits2_pos p = Pos.size p.
Proof. induction p as [p IH | p IH | ]; simpl; congruence. Qed.

Lemma digits2_pos_bounds (p : positive) :
  2 ^ (Z.pos (digits2_pos p) - 1) <= Z.pos p < 2 ^ Z.pos (digits2_pos p).
Proof.
  rewrite digits2_pos_size.
  pose proof (Pos.size_gt p) as Hgt.
  pose proof (Pos.size_le p) as Hle.
  apply Pos2Z.pos_lt_pos in Hgt; apply Pos2Z.pos_le_pos in Hle.
  rewrite Pos2Z.inj_pow in Hgt, Hle.
  change (Z.pos p~0) with (2 * Z.pos p) in Hle.
  replace (Z.pos (Pos.size p)) with (1 + (Z.pos (Pos.size p) - 1)) in Hle by lia.
  rewrite Z.pow_add_r in Hle by lia.
  change (2 ^ 1) with 2 in Hle.
  change (Z.pos 2) with 2 in *.
  lia.
Qed.

Lemma Zdigits2_positive (m : Z) : 0 < m -> 1 <= Zdigits2 m.
Proof. destruct m; simpl; lia. Qed.

Lemma Zdigits2_monotone (m m' : Z) :
  0 < m -> m <= m' -> Zdigits2 m <= Zdigits2 m'.
Proof.
  intros Hm Hle.
  destruct m as [ | p | p]; try lia.
  destruct m' as [ | q | q]; try lia; simpl.
  pose proof (digits2_pos_bounds p) as Hp.
  pose proof (digits2_pos_bounds q) as Hq.
  assert (H : 2 ^ (Z.pos (digits2_pos p) - 1) < 2 ^ Z.pos (digits2_pos q)) by lia.
  apply Z.pow_lt_mono_r_iff in H; lia.
Qed.

Lemma shr_1_half (mrs : shr_record) :
  0 <= shr_m mrs -> shr_m (shr_1 mrs) = shr_m mrs / 2.
Proof.
  destruct mrs as [m r s]; simpl.
  destruct m as [ | [q | q | ] | q ]; cbn [shr_m shr_1]; intros Hm.
  - reflexivity.
  - apply Z.div_unique with (r := 1); lia.
  - apply Z.div_unique with (r := 0); lia.
  - reflexivity.
  - lia.
Qed.

Lemma iter_shr_1_nonneg (n : positive) (mrs : shr_record) :
  0 <= shr_m mrs -> 0 <= shr_m (iter_pos shr_1 n mrs).
Proof.
  apply iter_pos_invariant with (P := fun r => 0 <= shr_m r), shr_1_nonneg.
Qed.

(** [n] right shifts divide the mantissa by [2 ^ n]. *)
Lemma iter_shr_1_div (n : positive) :
  forall mrs : shr_record,
    0 <= shr_m mrs -> shr_m (iter_pos shr_1 n mrs) = shr_m mrs / 2 ^ Z.pos n.
Proof.
  induction n as [n IH | n IH | ]; intros mrs Hm; simpl iter_pos.
  - rewrite IH by (apply iter_shr_1_nonneg, shr_1_nonneg, Hm).
    rewrite IH by (apply shr_1_nonneg, Hm).
    rewrite shr_1_half by assumption.
    rewrite !Z.div_div by (try apply Z.pow_pos_nonneg; lia).
    f_equal.
    replace (Z.pos n~1) with (1 + (Z.pos n + Z.pos n)) by lia.
    rewrite !Z.pow_add_r by lia. reflexivity.
  - rewrite IH by (apply iter_shr_1_nonneg, Hm).
    rewrite IH by assumption.
    rewrite Z.div_div by (try apply Z.pow_pos_nonneg; try apply Z.pow_nonzero; lia).
    f_equal.
    replace (Z.pos n~0) with (Z.pos n + Z.pos n) by lia.
    now rewrite Z.pow_add_r by lia.
  - now rewrite shr_1_half.
Qed.

(** A positive mantissa whose top bit is at or above the smallest
    subnormal stays positive when aligned to its exponent, and so does
    anything above it afterwards. *)
Lemma shr_fexp_positive (m e : Z) (l : location) :
  0 < m -> -148 <= e + Zdigits2 m ->
  1 <= shr_m (fst (shr_fexp prec emax m e l)) /\
  forall m', shr_m (fst (shr_fexp prec emax m e l)) <= m' ->
             -148 <= snd (shr_fexp prec emax m e l) + Zdigits2 m'.
Proof.
  intros Hm He; unfold shr_fexp, shr.
  assert (Hrec : shr_m (shr_record_of_loc m l) = m)
    by (destruct l as [ | [ | | ] ]; reflexivity).
  unfold fexp, emin, prec, emax.
  destruct (Z.max (Zdigits2 m + e - 24) (3 - 128 - 24) - e) as [ | n | n] eqn:En;
    cbn [fst snd].
  - rewrite Hrec; split; [lia | ].
    intros m' Hm'; pose proof (Zdigits2_monotone Hm Hm'); lia.
  - assert (Hd : 1 <= Zdigits2 m) by (apply Zdigits2_positive, Hm).
    assert (Hn : Z.pos n <= Zdigits2 m - 1) by lia.
    assert (Hdiv : 1 <= m / 2 ^ Z.pos n).
    { apply Z.div_le_lower_bound; [apply Z.pow_pos_nonneg; lia | ].
      destruct m as [ | p | p]; try lia.
      pose proof (digits2_pos_bounds p) as Hp; simpl in Hn.
      pose proof (Z.pow_le_mono_r 2 (Z.pos n) (Z.pos (digits2_pos p) - 1)
                    ltac:(lia) Hn).
      lia. }
    rewrite iter_shr_1_div by (rewrite Hrec; lia).
    rewrite Hrec; split; [assumption | ].
    intros m' Hm'.
    assert (1 <= Zdigits2 m') by (apply Zdigits2_positive; lia).
    lia.
  - rewrite Hrec; split; [lia | ].
    intros m' Hm'; pose proof (Zdigits2_monotone Hm Hm'); lia.
Qed.

Lemma round_nearest_even_ge (m : Z) (l : location) : m <= round_nearest_even m l.
Proof.
  destruct l as [ | [ | | ] ]; simpl; try lia.
  destruct (Z.even m); lia.
Qed.

(** Rounding a positive mantissa with its top bit at or above the smallest
    subnormal gives a finite float or an infinity. *)
Lemma binary_round_aux_nonzero (s : bool) (m e : Z) (l : location) :
  0 < m -> -148 <= e + Zdigits2 m ->
  nonzero_number (binary_round_aux prec emax s m e l) = true.
Proof.
  intros Hm He; unfold binary_round_aux.
  destruct (@shr_fexp_positive m e l Hm He) as [H1 H1'].
  destruct (shr_fexp prec emax m e l) as [mrs1 e1]; cbn [fst snd] in H1, H1'.
  pose proof (round_nearest_even_ge (shr_m mrs1) (loc_of_shr_record mrs1)) as Hr.
  destruct (@shr_fexp_positive
              (round_nearest_even (shr_m mrs1) (loc_of_shr_record mrs1))
              e1 loc_Exact) as [H2 _]; [lia | apply H1', Hr | ].
  destruct (shr_fexp prec emax _ e1 loc_Exact) as [mrs2 e2]; cbn [fst] in H2.
  destruct (shr_m mrs2) as [ | q | q]; try lia.
  destruct (e2 <=? emax - prec); reflexivity.
Qed.

Lemma bounded_exponent (m : positive) (e : Z) :
  bounded prec emax m e = true -> -149 <= e.
Proof.
  unfold bounded, canonical_mantissa, fexp, emin, prec, emax.
  intros Hb; apply andb_prop in Hb as [Hc _].
  apply Z.eqb_eq in Hc; lia.
Qed.

Lemma fov_binary32 : fov (F := float) = S754_finite false 9175040 (-17).
Proof. reflexivity. Qed.

(** [fov * scale] is a nonzero number for every binary32 [scale] that is
    one. *)
Lemma fov_times_scale_nonzero (scale : float) :
  valid_binary prec emax scale = true -> nonzero_number scale = true ->
  nonzero_number (fov * scale)%fl = true.
Proof.
  intros Hvalid Hscale; rewrite fov_binary32.
  destruct scale as [s | s | | s m e]; try discriminate; [reflexivity | ].
  cbn [fmul ops SFmul].
  apply binary_round_aux_nonzero; [lia | ].
  apply bounded_exponent in Hvalid.
  assert (24 <= Zdigits2 (Z.pos (9175040 * m))).
  { simpl. pose proof (digits2_pos_bounds (9175040 * m)) as Hb.
    destruct (Z_lt_le_dec (Z.pos (digits2_pos (9175040 * m))) 24) as [Hlt | ];
      [ | assumption].
    pose proof (Z.pow_le_mono_r 2 (Z.pos (digits2_pos (9175040 * m))) 23
                  ltac:(lia) ltac:(lia)) as Hpow.
    change (2 ^ 23) with 8388608 in Hpow. lia. }
  lia.
Qed.

Local Close Scope Z_scope.

(** The perspective term of a zero coordinate is that zero whenever
    [fov * scale] is neither a zero nor a NaN. *)
Lemma origin_term (scale : float) (s sz : bool) :
  nonzero_number (fov * scale)%fl = true ->
  ((S754_zero s / (of_int 1 + S754_zero sz / (fov * scale))) * aspectRatio)%fl
  = S754_zero s.
Proof.
  intros Hs.
  destruct (fov * scale)%fl as [s' | s' | | s' m e]; try discriminate;
    destruct s, sz, s'; reflexivity.
Qed.

End Binary32Facts.

Module ProjectTo2D.
Import Binary32 Binary32Facts.

Example projectTo2D_scale_8 :
  projectTo2D (Vec3d (of_int 9) (of_int 18) (of_int 560)) 5 7
    (of_int 8) zero zero
  = Vec3d (of_int 13) (of_int (-9)) (of_int 560).
Proof. vm_compute. reflexivity. Qed.

(** C1, as stated, fails in binary32 when [scale] is zero: the origin with
    [moveX = moveY = 0] is sent to NaN coordinates ([0 / (70 * 0)] is
    [0 / 0]), not to [(centerX, centerY)]. *)
Lemma projectTo2D_origin_scale_zero :
  let q := projectTo2D (Vec3d zero zero zero) 5 7 zero zero zero in
  x q = S754_nan /\ y q = S754_nan /\
  feq (x q) (of_int 5) = false /\ feq (y q) (of_int 7) = false /\
  q <> Vec3d (of_int 5) (of_int 7) zero.
Proof.
  vm_compute. repeat split; discriminate.
Qed.

(** C1 (amended): in binary32, [projectTo2D] returns
    [(centerX + (x / (1 + z / (70 * scale))) * (16 / 9) + moveX,
      centerY - (y / (1 + z / (70 * scale))) * (16 / 9) + moveY, z)],
    each operation being the float operation; and for the point (0,0,0)
    with [moveX = moveY = 0] (zeros of either sign) it returns coordinates
    equal to [((float) centerX, (float) centerY)] and its [z] unchanged,
    for every [scale] that is a nonzero number (neither a zero nor a
    NaN). *)
Theorem projectTo2D_spec :
  (forall (p : vec3d float) (centerX centerY : Z) (scale moveX moveY : float),
     projectTo2D p centerX centerY scale moveX moveY =
     Vec3d
       (of_int centerX
          + (x p / (of_int 1 + z p / (of_int 70 * scale)))
            * (of_int 16 / of_int 9)
          + moveX)%fl
       (of_int centerY
          - (y p / (of_int 1 + z p / (of_int 70 * scale)))
            * (of_int 16 / of_int 9)
          + moveY)%fl
       (z p))
  /\
  (forall (centerX centerY : Z) (scale : float) (sx sy sz smx smy : bool),
     valid_binary prec emax scale = true ->
     nonzero_number scale = true ->
     let q := projectTo2D (Vec3d (S754_zero sx) (S754_zero sy) (S754_zero sz))
                centerX centerY scale (S754_zero smx) (S754_zero smy) in
     feq (x q) (of_int centerX) = true /\
     feq (y q) (of_int centerY) = true /\
     z q = S754_zero sz).
Proof.
  split.
  - intros; apply projectTo2D_unfold.
  - intros cX cY scale sx sy sz smx smy Hvalid Hscale q; subst q.
    pose proof (fov_times_scale_nonzero scale Hvalid Hscale) as Hs.
    rewrite projectTo2D_unfold; cbn [x y z].
    change (of_int 70) with (fov (F := float)) in *.
    change (of_int 16 / of_int 9)%fl with (aspectRatio (F := float)).
    rewrite !(origin_term scale _ sz Hs).
    pose proof (float_of_int_not_nan cX) as HX.
    pose proof (float_of_int_not_nan cY) as HY.
    change (of_int cX) with (float_of_int cX).
    change (of_int cY) with (float_of_int cY).
    repeat split.
    + apply feq_fadd_zero, fadd_zero_feq; assumption.
    + apply feq_fadd_zero, fsub_zero_feq; assumption.
Qed.

Lemma projectTo2D_spec_witness :
  valid_binary prec emax (of_int 8) = true /\
  nonzero_number (of_int 8) = true /\
  let q := projectTo2D (Vec3d zero zero zero) 400 300 (of_int 8) zero zero in
  feq (x q) (of_int 400) = true /\
  feq (y q) (of_int 300) = true /\
  z q = zero.
Proof.
  split; [reflexivity | split; [reflexivity | ] ].
  apply (proj2 projectTo2D_spec 400%Z 300%Z (of_int 8) false false false false false);
    reflexivity.
Defined.

End ProjectTo2D.

(** ** [int], counted loops and lookups *)

Section IntFacts.

Local Open Scope Z_scope.

Lemma obind_Some (A B : Type) (a : A) (k : A -> option B) :
  obind (Some a) k = k a.
Proof. reflexivity. Qed.

Lemma int_in_range (z : Z) : is_int z -> int z = Some z.
Proof.
  unfold is_int, int; intros [Hlo Hhi].
  apply Z.leb_le in Hlo, Hhi; now rewrite Hlo, Hhi.
Qed.

Lemma int_Some (z z' : Z) : int z = Some z' -> z' = z /\ is_int z.
Proof.
  unfold is_int, int.
  destruct (Z.leb_spec INT_MIN z), (Z.leb_spec z INT_MAX); cbn [andb];
    try discriminate.
  intros [= <-]; auto.
Qed.

Lemma int_overflow (z : Z) : INT_MAX < z -> int z = None.
Proof.
  unfold int; intros Hz.
  destruct (Z.leb_spec z INT_MAX); [lia | ].
  now rewrite andb_false_r.
Qed.

End IntFacts.

Section LoopFacts.
Context {A : Type}.

Lemma zrange_In (n : nat) (i k : Z) :
  In k (zrange i n) <-> (i <= k < i + Z.of_nat n)%Z.
Proof.
  revert i; induction n as [ | n IH]; intros i; simpl.
  - split; [tauto | lia].
  - rewrite IH. lia.
Qed.

(** A loop whose body appends [g i] and has a result at every iteration
    computes a concatenation. *)
Lemma for_steps_append (body : Z -> list A -> option (list A))
    (g : Z -> list A) (n : nat) (i : Z) (acc : list A) :
  (forall k acc', In k (zrange i n) -> body k acc' = Some (acc' ++ g k)) ->
  for_steps n i body acc = Some (acc ++ flat_map g (zrange i n)).
Proof.
  revert i acc; induction n as [ | n IH]; intros i acc Hbody; simpl.
  - now rewrite app_nil_r.
  - rewrite Hbody by (simpl; auto); cbn [obind].
    rewrite IH, app_assoc; [reflexivity | ].
    intros k acc' Hk; apply Hbody; simpl; auto.
Qed.

(** In a loop that has a result, every iteration had one. *)
Lemma for_steps_succeeds {S : Type} (body : Z -> S -> option S) (n : nat) :
  forall (i : Z) (s s' : S),
    for_steps n i body s = Some s' ->
    forall k, In k (zrange i n) -> exists sk sk', body k sk = Some sk'.
Proof.
  induction n as [ | n IH]; intros i s s' Hrun k Hk; [destruct Hk | ].
  cbn [for_steps] in Hrun.
  destruct (body i s) as [s1 | ] eqn:Hbody; [ | discriminate].
  cbn [obind] in Hrun.
  destruct Hk as [<- | Hk]; [eauto | eapply IH; eassumption].
Qed.

(** A loop one iteration of which has no result has none. *)
Lemma for_steps_fails {S : Type} (body : Z -> S -> option S) (n : nat)
    (i k : Z) (s : S) :
  In k (zrange i n) -> (forall sk, body k sk = None) ->
  for_steps n i body s = None.
Proof.
  intros Hk Hnone.
  destruct (for_steps n i body s) as [s' | ] eqn:Hrun; [ | reflexivity].
  destruct (for_steps_succeeds _ _ _ _ Hrun k Hk) as (sk & sk' & Hsk).
  rewrite Hnone in Hsk; discriminate.
Qed.

(** Rows of one width [w], concatenated: length and row-major lookup. *)
Lemma flat_map_rows_length (g : Z -> list A) (w n : nat) (i : Z) :
  (forall k, In k (zrange i n) -> length (g k) = w) ->
  length (flat_map g (zrange i n)) = (n * w)%nat.
Proof.
  revert i; induction n as [ | n IH]; intros i Hw; simpl; [reflexivity | ].
  rewrite length_app, IH, Hw; simpl; auto.
  intros k Hk; apply Hw; simpl; auto.
Qed.

Lemma flat_map_rows_nth (g : Z -> list A) (w n : nat) (i : Z) (a b : nat) :
  (forall k, In k (zrange i n) -> length (g k) = w) ->
  (a < n)%nat -> (b < w)%nat ->
  nth_error (flat_map g (zrange i n)) (a * w + b)
  = nth_error (g (i + Z.of_nat a)%Z) b.
Proof.
  revert i a; induction n as [ | n IH]; intros i a Hw Ha Hb; [lia | ].
  simpl zrange; simpl flat_map.
  assert (Hi : length (g i) = w) by (apply Hw; simpl; auto).
  destruct a as [ | a].
  - simpl. rewrite Z.add_0_r. rewrite nth_error_app1 by lia. reflexivity.
  - rewrite nth_error_app2 by (simpl; lia).
    replace (Datatypes.S a * w + b - length (g i))%nat with (a * w + b)%nat
      by (simpl; lia).
    rewrite IH; try lia.
    + f_equal. f_equal. lia.
    + intros k Hk; apply Hw; simpl; auto.
Qed.

Lemma at_index_nth (v : list A) (i : Z) :
  (0 <= i)%Z -> at_index v i = nth_error v (Z.to_nat i).
Proof.
  intros Hi; unfold at_index.
  destruct (Z.ltb_spec i 0); [lia | reflexivity].
Qed.

Lemma at_index_in_bounds (v : list A) (i : Z) :
  (0 <= i < Z.of_nat (length v))%Z -> exists a, at_index v i = Some a.
Proof.
  intros Hi; rewrite at_index_nth by lia.
  destruct (nth_error v (Z.to_nat i)) as [a | ] eqn:E; [eauto | ].
  apply nth_error_None in E; lia.
Qed.

Lemma at_index_Some_bounds (v : list A) (i : Z) (a : A) :
  at_index v i = Some a -> (0 <= i < Z.of_nat (length v))%Z.
Proof.
  unfold at_index; destruct (Z.ltb_spec i 0); [discriminate | ].
  intros E. assert (Z.to_nat i < length v)%nat by (apply nth_error_Some; congruence).
  lia.
Qed.

End LoopFacts.

(** ** Sphere: structure of the two buffers, for any arithmetic *)

Section SphereFacts.
Context {F : Type} `{FloatOps F} `{TrigOps F} {dbl : DoubleOps F}.

Local Open Scope Z_scope.

(** The vertex buffer [generateVertices] leaves, row by row. *)
Lemma generateVertices_vertices (s : Sphere F) :
  latitudeSteps s < INT_MAX ->
  (0 <= latitudeSteps s -> longitudeSteps s < INT_MAX) ->
  generateVertices s
  = Some (set_vertices s
      (flat_map (fun lat =>
         flat_map (fun lon =>
           [sphere_point (radius s) (latitudeSteps s) (longitudeSteps s) lat lon])
           (zrange 0 (Z.to_nat (longitudeSteps s + 1))))
         (zrange 0 (Z.to_nat (latitudeSteps s + 1))))).
Proof.
  intros HL HN; unfold generateVertices, for_le at 1.
  destruct (Z.ltb_spec (latitudeSteps s) INT_MAX) as [_ | ]; [ | lia].
  unfold for_lt; rewrite Z.sub_0_r.
  rewrite for_steps_append with
    (g := fun lat =>
       flat_map (fun lon =>
         [sphere_point (radius s) (latitudeSteps s) (longitudeSteps s) lat lon])
         (zrange 0 (Z.to_nat (longitudeSteps s + 1)))); [reflexivity | ].
  intros lat vs Hlat; apply zrange_In in Hlat.
  unfold for_le.
  destruct (Z.ltb_spec (longitudeSteps s) INT_MAX) as [_ | ]; [ | lia].
  unfold for_lt; rewrite Z.sub_0_r.
  now apply for_steps_append.
Qed.

(** When [generateVertices] has a result, its loops ended. *)
Lemma generateVertices_exits (s s' : Sphere F) :
  generateVertices s = Some s' ->
  latitudeSteps s < INT_MAX /\
  (0 <= latitudeSteps s -> longitudeSteps s < INT_MAX).
Proof.
  unfold generateVertices, for_le at 1; intros Hgen.
  destruct (Z.ltb_spec (latitudeSteps s) INT_MAX) as [HL | ];
    [ | discriminate].
  split; [assumption | intros Hnonneg].
  destruct (for_lt 0 (latitudeSteps s + 1) _ []) as [vs | ] eqn:Hrun;
    [ | discriminate].
  unfold for_lt in Hrun.
  destruct (for_steps_succeeds _ _ _ _ Hrun 0) as (vs0 & vs1 & Hrow).
  { apply zrange_In; lia. }
  unfold for_le in Hrow.
  destruct (Z.ltb_spec (longitudeSteps s) INT_MAX); [assumption | discriminate].
Qed.

Lemma generateVertices_inv (s s' : Sphere F) :
  generateVertices s = Some s' ->
  radius s' = radius s /\ latitudeSteps s' = latitudeSteps s /\
  longitudeSteps s' = longitudeSteps s /\ triangles s' = triangles s /\
  vertices s'
  = flat_map (fun lat =>
      flat_map (fun lon =>
        [sphere_point (radius s) (latitudeSteps s) (longitudeSteps s) lat lon])
        (zrange 0 (Z.to_nat (longitudeSteps s + 1))))
      (zrange 0 (Z.to_nat (latitudeSteps s + 1))).
Proof.
  intros Hgen.
  destruct (generateVertices_exits _ Hgen) as [HL HN].
  rewrite generateVertices_vertices in Hgen by assumption.
  injection Hgen as <-; cbn; auto.
Qed.

Lemma row_length (g : Z -> vec3d F) (n : nat) (i : Z) :
  length (flat_map (fun lon => [g lon]) (zrange i n)) = n.
Proof.
  rewrite flat_map_rows_length with (w := 1%nat); [lia | reflexivity].
Qed.



(** With step counts the constructor accepts, [generateVertices] has a
    result, of the right size. *)
Lemma generateVertices_well_sized (s : Sphere F) :
  constructible (latitudeSteps s) (longitudeSteps s) ->
  exists s', generateVertices s = Some s' /\ well_sized s'.
Proof.
  intros (HL & HN & Hidx).
  rewrite generateVertices_vertices by assumption.
  eexists; split; [reflexivity | ].
  split; cbn [vertices latitudeSteps longitudeSteps set_vertices].
  - apply flat_map_rows_length; intros; apply row_length.
  - repeat split; assumption.
Qed.

(** Latitude-major order: the vertex of [(lat, lon)] is at index
    [lat * (longitudeSteps + 1) + lon]. *)
Lemma generateVertices_at (s s' : Sphere F) (lat lon : Z) :
  generateVertices s = Some s' ->
  0 <= lat <= latitudeSteps s -> 0 <= lon <= longitudeSteps s ->
  at_index (vertices s') (lat * (longitudeSteps s + 1) + lon)
  = Some (sphere_point (radius s) (latitudeSteps s) (longitudeSteps s) lat lon).
Proof.
  intros Hgen Hlat Hlon.
  apply generateVertices_inv in Hgen as (_ & _ & _ & _ & ->).
  rewrite at_index_nth by nia.
  replace (Z.to_nat (lat * (longitudeSteps s + 1) + lon))
    with (Z.to_nat lat * Z.to_nat (longitudeSteps s + 1) + Z.to_nat lon)%nat by nia.
  rewrite flat_map_rows_nth; try lia.
  2:{ intros; apply row_length. }
  replace (Z.to_nat lon) with (Z.to_nat lon * 1 + 0)%nat at 1 by lia.
  rewrite flat_map_rows_nth with (w := 1%nat); try lia.
  2:{ reflexivity. }
  simpl. do 3 f_equal; lia.
Qed.

(** Every index [generateIndices] looks up lies inside a buffer that has
    one entry per (latitude, longitude) pair. *)
Lemma cell_indices_in_bounds (latSteps lonSteps lat lon : Z) :
  0 <= lat < latSteps -> 0 <= lon < lonSteps ->
  let first := lat * (lonSteps + 1) + lon in
  let second := first + lonSteps + 1 in
  0 <= first /\ first < first + 1 /\ first + 1 < second /\
  second < second + 1 /\ second + 1 < (latSteps + 1) * (lonSteps + 1).
Proof. intros Hlat Hlon; cbv zeta; nia. Qed.

(** The two indices of a cell, when the largest index of the cell is an
    [int]. *)
Lemma cell_indices_int (stride lat lon : Z) :
  0 <= lat -> 0 <= lon -> 0 <= stride ->
  lat * (stride + 1) + lon + stride + 1 + 1 <= INT_MAX ->
  first_index stride lat lon = Some (lat * (stride + 1) + lon) /\
  second_index stride (lat * (stride + 1) + lon)
  = Some (lat * (stride + 1) + lon + stride + 1) /\
  int (lat * (stride + 1) + lon + 1) = Some (lat * (stride + 1) + lon + 1) /\
  int (lat * (stride + 1) + lon + stride + 1 + 1)
  = Some (lat * (stride + 1) + lon + stride + 1 + 1).
Proof.
  intros Hlat Hlon Hstride Hmax.
  assert (Hmin : INT_MIN <= 0) by (unfold INT_MIN; lia).
  assert (Hprod : 0 <= lat * (stride + 1)) by nia.
  unfold first_index, second_index.
  rewrite (int_in_range (z := stride + 1)) by (unfold is_int; lia).
  cbn [obind].
  rewrite (int_in_range (z := lat * (stride + 1))) by (unfold is_int; lia).
  cbn [obind].
  rewrite (int_in_range (z := lat * (stride + 1) + lon)) by (unfold is_int; lia).
  rewrite (int_in_range (z := lat * (stride + 1) + lon + stride))
    by (unfold is_int; lia).
  cbn [obind].
  repeat split; apply int_in_range; unfold is_int; lia.
Qed.

Lemma quad_unfold (vs : list (vec3d F)) (stride lat lon : Z)
    (ts : list (triangle F)) (a b c d : vec3d F) :
  0 <= lat -> 0 <= lon -> 0 <= stride ->
  lat * (stride + 1) + lon + stride + 1 + 1 <= INT_MAX ->
  at_index vs (lat * (stride + 1) + lon) = Some a ->
  at_index vs (lat * (stride + 1) + lon + stride + 1) = Some b ->
  at_index vs (lat * (stride + 1) + lon + 1) = Some c ->
  at_index vs (lat * (stride + 1) + lon + stride + 1 + 1) = Some d ->
  quad vs stride lat lon ts = Some (ts ++ [Triangle a b c; Triangle b d c]).
Proof.
  intros Hlat Hlon Hstride Hmax Ha Hb Hc Hd; unfold quad.
  destruct (cell_indices_int Hlat Hlon Hstride Hmax) as (Hf & Hs & Hf1 & Hs1).
  repeat (first [rewrite Hf | rewrite Hs | rewrite Hf1 | rewrite Hs1
                | rewrite Ha | rewrite Hb | rewrite Hc | rewrite Hd];
          cbn [obind]).
  now rewrite <- app_assoc.
Qed.

(** When a cell has a result, its largest index is an [int]. *)
Lemma quad_int (vs : list (vec3d F)) (stride lat lon : Z)
    (ts ts' : list (triangle F)) :
  quad vs stride lat lon ts = Some ts' ->
  lat * (stride + 1) + lon + stride + 1 + 1 <= INT_MAX.
Proof.
  unfold quad, first_index, second_index; intros Hq.
  repeat match goal with
         | E : obind ?o _ = Some _ |- _ =>
           destruct o eqn:?; cbn [obind] in E; [ | discriminate E]
         end.
  repeat match goal with
         | E : int _ = Some _ |- _ => apply int_Some in E as [-> E]
         end.
  unfold is_int in *; lia.
Qed.

(** On a buffer of the right size every lookup of a cell succeeds. *)
Lemma quad_in_bounds (vs : list (vec3d F)) (latSteps lonSteps lat lon : Z) :
  Z.of_nat (length vs) = (latSteps + 1) * (lonSteps + 1) ->
  (latSteps + 1) * (lonSteps + 1) <= INT_MAX + 1 ->
  0 <= lat < latSteps -> 0 <= lon < lonSteps ->
  exists a b c d,
    at_index vs (lat * (lonSteps + 1) + lon) = Some a /\
    at_index vs (lat * (lonSteps + 1) + lon + lonSteps + 1) = Some b /\
    at_index vs (lat * (lonSteps + 1) + lon + 1) = Some c /\
    at_index vs (lat * (lonSteps + 1) + lon + lonSteps + 1 + 1) = Some d /\
    cell_triangles vs lonSteps lat lon = [Triangle a b c; Triangle b d c] /\
    forall ts, quad vs lonSteps lat lon ts
               = Some (ts ++ cell_triangles vs lonSteps lat lon).
Proof.
  intros Hlen Hmax Hlat Hlon.
  pose proof (cell_indices_in_bounds Hlat Hlon) as Hb; cbv zeta in Hb.
  destruct (@at_index_in_bounds _ vs (lat * (lonSteps + 1) + lon)) as [a Ha]; [lia | ].
  destruct (@at_index_in_bounds _ vs (lat * (lonSteps + 1) + lon + lonSteps + 1))
    as [b Hb']; [lia | ].
  destruct (@at_index_in_bounds _ vs (lat * (lonSteps + 1) + lon + 1))
    as [c Hc]; [lia | ].
  destruct (@at_index_in_bounds _ vs (lat * (lonSteps + 1) + lon + lonSteps + 1 + 1))
    as [d Hd]; [lia | ].
  assert (Hq : forall ts, quad vs lonSteps lat lon ts
                          = Some (ts ++ [Triangle a b c; Triangle b d c])).
  { intros ts; apply quad_unfold; try assumption; lia. }
  exists a, b, c, d.
  assert (Hcell : cell_triangles vs lonSteps lat lon
                  = [Triangle a b c; Triangle b d c]).
  { unfold cell_triangles; now rewrite Hq. }
  repeat split; try assumption.
  intros ts; rewrite Hcell; apply Hq.
Qed.

(** [index_triangles] as a concatenation of cells, when every cell has a
    result. *)
Lemma index_triangles_cells (vs : list (vec3d F)) (latSteps lonSteps : Z) :
  (forall lat lon ts, 0 <= lat < latSteps -> 0 <= lon < lonSteps ->
     quad vs lonSteps lat lon ts = Some (ts ++ cell_triangles vs lonSteps lat lon)) ->
  index_triangles vs latSteps lonSteps
  = Some (flat_map (fun lat =>
            flat_map (cell_triangles vs lonSteps lat) (zrange 0 (Z.to_nat lonSteps)))
            (zrange 0 (Z.to_nat latSteps))).
Proof.
  intros Hq; unfold index_triangles, for_lt; rewrite !Z.sub_0_r.
  apply (for_steps_append
           (fun lat ts => for_steps _ 0 _ ts)
           (fun lat => flat_map (cell_triangles vs lonSteps lat)
                         (zrange 0 (Z.to_nat lonSteps)))).
  intros lat acc Hlat; apply zrange_In in Hlat.
  apply (for_steps_append
           (fun lon ts => quad vs lonSteps lat lon ts)
           (cell_triangles vs lonSteps lat)).
  intros lon acc' Hlon; apply zrange_In in Hlon.
  apply Hq; lia.
Qed.

(** When [index_triangles] has a result and there is a cell, the largest
    index, that of the last cell, is an [int]. *)
Lemma index_triangles_int (vs : list (vec3d F)) (latSteps lonSteps : Z)
    (ts : list (triangle F)) :
  1 <= latSteps -> 1 <= lonSteps ->
  index_triangles vs latSteps lonSteps = Some ts ->
  (latSteps + 1) * (lonSteps + 1) <= INT_MAX + 1.
Proof.
  intros HL HN; unfold index_triangles, for_lt; rewrite !Z.sub_0_r; intros Hrun.
  destruct (for_steps_succeeds _ _ _ _ Hrun (latSteps - 1))
    as (ts1 & ts2 & Hrow); [apply zrange_In; lia | ].
  destruct (for_steps_succeeds _ _ _ _ Hrow (lonSteps - 1))
    as (ts3 & ts4 & Hq); [apply zrange_In; lia | ].
  apply quad_int in Hq; nia.
Qed.

Lemma well_sized_length (s : Sphere F) :
  well_sized s -> 0 <= latitudeSteps s -> 0 <= longitudeSteps s ->
  Z.of_nat (length (vertices s)) = (latitudeSteps s + 1) * (longitudeSteps s + 1).
Proof. unfold well_sized; intros [-> _] ? ?; nia. Qed.

Lemma index_triangles_well_sized (s : Sphere F) :
  well_sized s ->
  index_triangles (vertices s) (latitudeSteps s) (longitudeSteps s)
  = Some (flat_map (fun lat =>
            flat_map (cell_triangles (vertices s) (longitudeSteps s) lat)
              (zrange 0 (Z.to_nat (longitudeSteps s))))
            (zrange 0 (Z.to_nat (latitudeSteps s)))).
Proof.
  intros Hs; apply index_triangles_cells; intros lat lon ts Hlat Hlon.
  destruct (quad_in_bounds (vertices s) (latSteps := latitudeSteps s)
              (lonSteps := longitudeSteps s) (lat := lat) (lon := lon))
    as (a & b & c & d & _ & _ & _ & _ & _ & Hq); try assumption.
  - apply well_sized_length; [assumption | lia | lia].
  - destruct Hs as (_ & _ & _ & Hidx); apply Hidx; lia.
  - apply Hq.
Qed.

Lemma generateIndices_well_sized (s : Sphere F) :
  well_sized s ->
  exists ts,
    index_triangles (vertices s) (latitudeSteps s) (longitudeSteps s) = Some ts /\
    generateIndices s = Some (set_triangles s ts).
Proof.
  intros Hs; unfold generateIndices.
  rewrite (index_triangles_well_sized Hs); simpl; eauto.
Qed.

Lemma generateIndices_inv (s s' : Sphere F) :
  generateIndices s = Some s' ->
  radius s' = radius s /\ latitudeSteps s' = latitudeSteps s /\
  longitudeSteps s' = longitudeSteps s /\ vertices s' = vertices s /\
  index_triangles (vertices s') (latitudeSteps s') (longitudeSteps s')
  = Some (triangles s').
Proof.
  unfold generateIndices.
  destruct (index_triangles _ _ _) as [ts | ] eqn:E; simpl; [ | discriminate].
  intros [= <-]; simpl; auto.
Qed.

(** The constructor completes exactly with the step counts described by
    [constructible]. *)
Lemma Sphere_new_constructible (r : F) (latSteps lonSteps : Z) (s : Sphere F) :
  Sphere_new r latSteps lonSteps = Some s -> constructible latSteps lonSteps.
Proof.
  unfold Sphere_new; intros Hnew.
  destruct (generateVertices (MkSphere r latSteps lonSteps [] []))
    as [s0 | ] eqn:Hgen; [ | discriminate].
  cbn [obind] in Hnew.
  destruct (generateVertices_exits _ Hgen) as [HL HN].
  cbn [latitudeSteps longitudeSteps] in HL, HN.
  apply generateVertices_inv in Hgen as (_ & HL0 & HN0 & _).
  cbn [latitudeSteps longitudeSteps] in HL0, HN0.
  apply generateIndices_inv in Hnew as (_ & HL1 & HN1 & _ & Hidx).
  repeat split; try assumption.
  intros HL' HN'; rewrite HL1, HN1, HL0, HN0 in Hidx.
  eapply index_triangles_int; eassumption.
Qed.

End SphereFacts.

(** ** Sphere: construction, triangles and the public operations *)

Section SphereClaims.
Context {F : Type} `{FloatOps F} `{TrigOps F} {dbl : DoubleOps F}.

Local Open Scope Z_scope.

Lemma flat_map_nil {A B : Type} (l : list A) :
  flat_map (fun _ : A => @nil B) l = [].
Proof. induction l; simpl; auto. Qed.

Lemma cells_row_length (vs : list (vec3d F)) (latSteps lonSteps lat : Z) :
  Z.of_nat (length vs) = (latSteps + 1) * (lonSteps + 1) ->
  (latSteps + 1) * (lonSteps + 1) <= INT_MAX + 1 ->
  0 <= lat < latSteps ->
  length (flat_map (cell_triangles vs lonSteps lat) (zrange 0 (Z.to_nat lonSteps)))
  = (Z.to_nat lonSteps * 2)%nat.
Proof.
  intros Hlen Hmax Hlat; apply flat_map_rows_length.
  intros lon Hlon; apply zrange_In in Hlon.
  destruct (quad_in_bounds vs (latSteps := latSteps) (lonSteps := lonSteps)
              (lat := lat) (lon := lon))
    as (a & b & c & d & _ & _ & _ & _ & -> & _); try assumption; [lia | reflexivity].
Qed.

(** What [generateIndices] leaves on a buffer of the right size. *)
Lemma generateIndices_cells (s : Sphere F) :
  well_sized s -> 1 <= latitudeSteps s -> 1 <= longitudeSteps s ->
  exists s',
    generateIndices s = Some s' /\
    vertices s' = vertices s /\
    Z.of_nat (length (getTriangles s')) = 2 * latitudeSteps s * longitudeSteps s /\
    forall lat lon,
      0 <= lat < latitudeSteps s -> 0 <= lon < longitudeSteps s ->
      let first := lat * (longitudeSteps s + 1) + lon in
      let second := first + longitudeSteps s + 1 in
      exists a b c d,
        at_index (vertices s) first = Some a /\
        at_index (vertices s) second = Some b /\
        at_index (vertices s) (first + 1) = Some c /\
        at_index (vertices s) (second + 1) = Some d /\
        at_index (getTriangles s') (2 * (lat * longitudeSteps s + lon))
        = Some (Triangle a b c) /\
        at_index (getTriangles s') (2 * (lat * longitudeSteps s + lon) + 1)
        = Some (Triangle b d c).
Proof.
  intros Hs HL HN.
  assert (Hlen : Z.of_nat (length (vertices s))
                 = (latitudeSteps s + 1) * (longitudeSteps s + 1))
    by (apply well_sized_length; [assumption | lia | lia]).
  assert (Hmax : (latitudeSteps s + 1) * (longitudeSteps s + 1) <= INT_MAX + 1)
    by (destruct Hs as (_ & _ & _ & Hmax); apply Hmax; lia).
  unfold generateIndices; rewrite (index_triangles_well_sized Hs); cbn [obind].
  eexists; split; [reflexivity | ].
  unfold getTriangles, set_triangles; cbn [triangles vertices].
  split; [reflexivity | ]; split.
  - rewrite flat_map_rows_length with (w := (Z.to_nat (longitudeSteps s) * 2)%nat).
    + rewrite !Nat2Z.inj_mul, !Z2Nat.id by lia.
      change (Z.of_nat 2) with 2. ring.
    + intros lat Hlat; apply zrange_In in Hlat.
      apply cells_row_length with (latSteps := latitudeSteps s);
        [assumption | assumption | lia].
  - intros lat lon Hlat Hlon; cbv zeta.
    destruct (quad_in_bounds (vertices s) Hlen Hmax Hlat Hlon)
      as (a & b & c & d & Ha & Hb & Hc & Hd & Hcell & _).
    exists a, b, c, d; repeat split; try assumption.
    + rewrite at_index_nth by nia.
      replace (Z.to_nat (2 * (lat * longitudeSteps s + lon)))
        with (Z.to_nat lat * (Z.to_nat (longitudeSteps s) * 2)
              + (Z.to_nat lon * 2 + 0))%nat by nia.
      rewrite flat_map_rows_nth; try nia.
      2:{ intros k Hk; apply zrange_In in Hk.
          apply cells_row_length with (latSteps := latitudeSteps s);
            [assumption | assumption | lia]. }
      rewrite flat_map_rows_nth with (w := 2%nat); try lia.
      2:{ intros k Hk; apply zrange_In in Hk.
          destruct (quad_in_bounds (vertices s) (lat := 0 + Z.of_nat (Z.to_nat lat))
                      (lon := k) Hlen Hmax)
            as (? & ? & ? & ? & _ & _ & _ & _ & -> & _); [lia | lia | reflexivity]. }
      replace (0 + Z.of_nat (Z.to_nat lat)) with lat by lia.
      replace (0 + Z.of_nat (Z.to_nat lon)) with lon by lia.
      now rewrite Hcell.
    + rewrite at_index_nth by nia.
      replace (Z.to_nat (2 * (lat * longitudeSteps s + lon) + 1))
        with (Z.to_nat lat * (Z.to_nat (longitudeSteps s) * 2)
              + (Z.to_nat lon * 2 + 1))%nat by nia.
      rewrite flat_map_rows_nth; try nia.
      2:{ intros k Hk; apply zrange_In in Hk.
          apply cells_row_length with (latSteps := latitudeSteps s);
            [assumption | assumption | lia]. }
      rewrite flat_map_rows_nth with (w := 2%nat); try lia.
      2:{ intros k Hk; apply zrange_In in Hk.
          destruct (quad_in_bounds (vertices s) (lat := 0 + Z.of_nat (Z.to_nat lat))
                      (lon := k) Hlen Hmax)
            as (? & ? & ? & ? & _ & _ & _ & _ & -> & _); [lia | lia | reflexivity]. }
      replace (0 + Z.of_nat (Z.to_nat lat)) with lat by lia.
      replace (0 + Z.of_nat (Z.to_nat lon)) with lon by lia.
      now rewrite Hcell.
Qed.

Lemma constructible_degenerate (latSteps lonSteps : Z) :
  latSteps <= 0 \/ lonSteps <= 0 ->
  latSteps < INT_MAX -> (0 <= latSteps -> lonSteps < INT_MAX) ->
  constructible latSteps lonSteps.
Proof. intros Hdeg HL HN; repeat split; try assumption; lia. Qed.

(** The constructor completes with the step counts described by
    [constructible]. *)
Lemma Sphere_new_total (r : F) (latSteps lonSteps : Z) :
  constructible latSteps lonSteps ->
  exists s, Sphere_new r latSteps lonSteps = Some s.
Proof.
  intros Hc; unfold Sphere_new.
  destruct (generateVertices_well_sized (MkSphere r latSteps lonSteps [] []) Hc)
    as (s0 & -> & Hs0); cbn [obind].
  destruct (generateIndices_well_sized Hs0) as (ts & _ & ->); eauto.
Qed.

Lemma Sphere_new_fails (r : F) (latSteps lonSteps : Z) :
  ~ constructible latSteps lonSteps -> Sphere_new r latSteps lonSteps = None.
Proof.
  intros Hc.
  destruct (Sphere_new r latSteps lonSteps) as [s | ] eqn:Hnew; [ | reflexivity].
  exfalso; apply Hc; eapply Sphere_new_constructible; eassumption.
Qed.

(** C9 (amended): with [latitudeSteps <= 0] or [longitudeSteps <= 0], when
    the loops of [generateVertices] end, that is with
    [latitudeSteps < INT_MAX] and, if [latitudeSteps] is not negative,
    [longitudeSteps < INT_MAX], the constructor completes (no lookup in
    the vertex buffer is made) and [getTriangles] returns the empty list;
    otherwise the constructor does not complete. *)
Theorem Sphere_new_degenerate (r : F) (latSteps lonSteps : Z) :
  latSteps <= 0 \/ lonSteps <= 0 ->
  (latSteps < INT_MAX /\ (0 <= latSteps -> lonSteps < INT_MAX) ->
   exists s, Sphere_new r latSteps lonSteps = Some s /\ getTriangles s = []) /\
  (~ (latSteps < INT_MAX /\ (0 <= latSteps -> lonSteps < INT_MAX)) ->
   Sphere_new r latSteps lonSteps = None).
Proof.
  intros Hdeg; split.
  - intros [HL HN].
    destruct (Sphere_new_total r (constructible_degenerate Hdeg HL HN))
      as [s Hnew].
    exists s; split; [assumption | ].
    unfold Sphere_new in Hnew.
    destruct (generateVertices (MkSphere r latSteps lonSteps [] []))
      as [s0 | ] eqn:Hgen; [ | discriminate].
    cbn [obind] in Hnew.
    apply generateVertices_inv in Hgen as (_ & HL0 & HN0 & _).
    cbn [latitudeSteps longitudeSteps] in HL0, HN0.
    unfold generateIndices in Hnew.
    rewrite index_triangles_cells in Hnew by (rewrite HL0, HN0; intros; lia).
    cbn [obind] in Hnew; injection Hnew as <-.
    unfold getTriangles; cbn [triangles set_triangles]; rewrite HL0, HN0.
    destruct Hdeg as [HL' | HN'].
    + replace (Z.to_nat latSteps) with 0%nat by lia. reflexivity.
    + replace (Z.to_nat lonSteps) with 0%nat by lia. cbn [zrange flat_map].
      apply flat_map_nil.
  - intros Hno; apply Sphere_new_fails.
    intros (HL & HN & _); apply Hno; auto.
Qed.

(** C10 (amended): with [latitudeSteps >= 1] and [longitudeSteps >= 1],
    when [(latitudeSteps+1) * (longitudeSteps+1) <= 2^31], the buffer
    [generateVertices] leaves has [(latitudeSteps+1) * (longitudeSteps+1)]
    entries, the indices [generateIndices] computes ([first], [first+1],
    [second], [second+1] of every cell) are computed without overflow, are
    non-negative and below that size, each lookup succeeds, and so
    [generateIndices] and the constructor complete; with a larger product
    the constructor does not complete. *)
Theorem generateIndices_in_bounds (r : F) (latSteps lonSteps : Z) :
  1 <= latSteps -> 1 <= lonSteps ->
  ((latSteps + 1) * (lonSteps + 1) <= INT_MAX + 1 ->
   exists s,
     generateVertices (MkSphere r latSteps lonSteps [] []) = Some s /\
     let size := Z.of_nat (length (vertices s)) in
     size = (latSteps + 1) * (lonSteps + 1) /\
     (forall lat lon,
        0 <= lat < latSteps -> 0 <= lon < lonSteps ->
        let first := lat * (lonSteps + 1) + lon in
        let second := first + lonSteps + 1 in
        first_index lonSteps lat lon = Some first /\
        second_index lonSteps first = Some second /\
        int (first + 1) = Some (first + 1) /\
        int (second + 1) = Some (second + 1) /\
        (0 <= first < size /\ at_index (vertices s) first <> None) /\
        (0 <= first + 1 < size /\ at_index (vertices s) (first + 1) <> None) /\
        (0 <= second < size /\ at_index (vertices s) second <> None) /\
        (0 <= second + 1 < size /\ at_index (vertices s) (second + 1) <> None)) /\
     generateIndices s <> None /\
     Sphere_new r latSteps lonSteps <> None) /\
  (INT_MAX + 1 < (latSteps + 1) * (lonSteps + 1) ->
   Sphere_new r latSteps lonSteps = None).
Proof.
  intros HL HN; split.
  - intros Hmax.
    assert (Hc : constructible latSteps lonSteps)
      by (repeat split; try assumption; nia).
    destruct (generateVertices_well_sized (MkSphere r latSteps lonSteps [] []) Hc)
      as (s & Hgen & Hs).
    exists s; split; [assumption | ]; intros size; subst size.
    apply generateVertices_inv in Hgen as Hinv.
    destruct Hinv as (_ & HLs & HNs & _).
    cbn [latitudeSteps longitudeSteps] in HLs, HNs.
    assert (Hsize : Z.of_nat (length (vertices s))
                    = (latSteps + 1) * (lonSteps + 1)).
    { rewrite <- HLs, <- HNs; apply (well_sized_length Hs); lia. }
    split; [assumption | ]; split.
    + intros lat lon Hlat Hlon first second.
      destruct (quad_in_bounds (vertices s) Hsize Hmax Hlat Hlon)
        as (a & b & c & d & Ha & Hb & Hc' & Hd & _).
      fold first in Ha, Hb, Hc', Hd. fold second in Hb, Hd.
      pose proof (at_index_Some_bounds _ _ Ha).
      pose proof (at_index_Some_bounds _ _ Hb).
      pose proof (at_index_Some_bounds _ _ Hc').
      pose proof (at_index_Some_bounds _ _ Hd).
      destruct (@cell_indices_int lonSteps lat lon) as (Hf & Hsd & Hf1 & Hs1);
        try (subst second first; lia).
      repeat split; try assumption; try lia; congruence.
    + destruct (generateIndices_well_sized Hs) as (ts & _ & Hidx).
      unfold Sphere_new; rewrite Hgen; cbn [obind]; rewrite Hidx.
      split; discriminate.
  - intros Hover; apply Sphere_new_fails.
    intros (_ & _ & Hidx); specialize (Hidx HL HN); lia.
Qed.

Lemma rotate_well_sized (s s' : Sphere F) (angleX angleY angleZ : F) :
  well_sized s -> rotate s angleX angleY angleZ = Some s' -> well_sized s'.
Proof.
  unfold rotate; intros Hs Hrot.
  apply generateIndices_inv in Hrot as (_ & HL & HN & Hv & _).
  unfold well_sized in *; rewrite Hv, HL, HN; simpl.
  unfold rotate_vertices; now rewrite length_map.
Qed.

Lemma generateVertices_keeps_size (s s' : Sphere F) :
  well_sized s -> generateVertices s = Some s' -> well_sized s'.
Proof.
  intros [_ Hc] Hgen.
  destruct (generateVertices_well_sized s Hc) as (s1 & Hgen1 & Hs1).
  congruence.
Qed.

Lemma Sphere_new_well_sized (r : F) (latSteps lonSteps : Z) (s : Sphere F) :
  Sphere_new r latSteps lonSteps = Some s -> well_sized s.
Proof.
  intros Hnew.
  pose proof (Sphere_new_constructible _ _ _ Hnew) as Hc.
  unfold Sphere_new in Hnew.
  destruct (generateVertices_well_sized (MkSphere r latSteps lonSteps [] []) Hc)
    as (s0 & Hgen & Hs0).
  rewrite Hgen in Hnew; cbn [obind] in Hnew.
  apply generateIndices_inv in Hnew as (_ & HL & HN & Hv & _).
  unfold well_sized in *; now rewrite Hv, HL, HN.
Qed.

Lemma reachable_well_sized (s : Sphere F) : reachable s -> well_sized s.
Proof.
  induction 1 as [r L N s Hnew | s s' aX aY aZ _ IH Hrot].
  - eapply Sphere_new_well_sized; eassumption.
  - eapply rotate_well_sized; eassumption.
Qed.

Lemma Sphere_new_inv (r : F) (latSteps lonSteps : Z) (s : Sphere F) :
  Sphere_new r latSteps lonSteps = Some s ->
  exists s0,
    generateVertices (MkSphere r latSteps lonSteps [] []) = Some s0 /\
    generateIndices s0 = Some s.
Proof.
  unfold Sphere_new; intros Hnew.
  destruct (generateVertices (MkSphere r latSteps lonSteps [] []))
    as [s0 | ]; [eauto | discriminate].
Qed.

Lemma Sphere_new_fields (r : F) (latSteps lonSteps : Z) (s : Sphere F) :
  Sphere_new r latSteps lonSteps = Some s ->
  radius s = r /\ latitudeSteps s = latSteps /\ longitudeSteps s = lonSteps.
Proof.
  intros Hnew; apply Sphere_new_inv in Hnew as (s0 & Hgen & Hidx).
  apply generateVertices_inv in Hgen as (Hr & HL & HN & _).
  apply generateIndices_inv in Hidx as (Hr' & HL' & HN' & _).
  cbn [radius latitudeSteps longitudeSteps] in *.
  repeat split; congruence.
Qed.

(** Whatever public members are called, the vertex buffer keeps one entry
    per (latitude, longitude) pair. *)
Lemma public_state_well_sized (s : Sphere F) : public_state s -> well_sized s.
Proof.
  induction 1 as [r L N s Hnew | s s' _ IH Hgen | s s' _ IH Hgen
                 | s s' aX aY aZ _ IH Hrot].
  - eapply Sphere_new_well_sized; eassumption.
  - eapply generateVertices_keeps_size; eassumption.
  - apply generateIndices_inv in Hgen as (_ & HL & HN & Hv & _).
    unfold well_sized in *; now rewrite Hv, HL, HN.
  - eapply rotate_well_sized; eassumption.
Qed.

Lemma reachable_public (s : Sphere F) : reachable s -> public_state s.
Proof.
  induction 1 as [r L N s Hnew | s s' aX aY aZ _ IH Hrot].
  - eapply public_new; eassumption.
  - eapply public_rotate; eassumption.
Qed.


(** [rotate] never fails on a buffer of the right size. *)
Lemma rotate_total (s : Sphere F) (angleX angleY angleZ : F) :
  well_sized s -> exists s', rotate s angleX angleY angleZ = Some s'.
Proof.
  intros Hs; unfold rotate.
  destruct (generateIndices_well_sized
              (s := set_vertices s
                      (rotate_vertices angleX angleY angleZ (vertices s))))
    as (ts & _ & ->); [ | eauto].
  unfold well_sized in *; simpl.
  unfold rotate_vertices; now rewrite length_map.
Qed.

Lemma rotate_vertices_eq (s s' : Sphere F) (angleX angleY angleZ : F) :
  rotate s angleX angleY angleZ = Some s' ->
  vertices s' = rotate_vertices angleX angleY angleZ (vertices s).
Proof.
  unfold rotate; intros Hrot.
  now apply generateIndices_inv in Hrot as (_ & _ & _ & -> & _).
Qed.

Lemma rotate_fields (s s' : Sphere F) (angleX angleY angleZ : F) :
  rotate s angleX angleY angleZ = Some s' ->
  radius s' = radius s /\ latitudeSteps s' = latitudeSteps s /\
  longitudeSteps s' = longitudeSteps s /\
  index_triangles (vertices s') (latitudeSteps s') (longitudeSteps s')
  = Some (triangles s').
Proof.
  unfold rotate; intros Hrot.
  now apply generateIndices_inv in Hrot as (? & ? & ? & _ & ?).
Qed.

(** The first triangle built from a buffer starts at its first vertex. *)
Lemma first_triangle (s : Sphere F) (ts : list (triangle F)) (a : vec3d F) :
  well_sized s -> 1 <= latitudeSteps s -> 1 <= longitudeSteps s ->
  index_triangles (vertices s) (latitudeSteps s) (longitudeSteps s) = Some ts ->
  at_index (vertices s) 0 = Some a ->
  exists t, at_index ts 0 = Some t /\ p1 t = a.
Proof.
  intros Hs HL HN Hts Ha.
  destruct (generateIndices_cells Hs HL HN) as (s' & Hgen & _ & _ & Hcell).
  unfold generateIndices in Hgen; rewrite Hts in Hgen; simpl in Hgen.
  injection Hgen as <-.
  destruct (Hcell 0 0) as (a' & b & c & d & Ha' & _ & _ & _ & Ht & _);
    [lia | lia | ].
  replace (0 * (longitudeSteps s + 1) + 0) with 0 in Ha' by lia.
  replace (2 * (0 * longitudeSteps s + 0)) with 0 in Ht by lia.
  rewrite Ha in Ha'; injection Ha' as <-.
  unfold getTriangles in Ht; simpl in Ht.
  exists (Triangle a b c); split; [assumption | reflexivity].
Qed.

(** C6 (amended): the constructor completes exactly when both loops of
    [generateVertices] end and the indices of [generateIndices] are
    [int]s ([constructible]); and in every state reached by construction
    followed by any number of [rotate] calls, [getTriangles] is the list
    the quad rule of [generateIndices] builds from the current vertex
    buffer and the step counts; [rotate] completes there and keeps
    this. *)
Theorem triangles_follow_vertices :
  (forall (r : F) (latSteps lonSteps : Z),
     (exists s, Sphere_new r latSteps lonSteps = Some s)
     <-> constructible latSteps lonSteps) /\
  (forall s : Sphere F, reachable s ->
     index_triangles (vertices s) (latitudeSteps s) (longitudeSteps s)
     = Some (getTriangles s) /\
     forall angleX angleY angleZ : F,
       exists s', rotate s angleX angleY angleZ = Some s' /\
         latitudeSteps s' = latitudeSteps s /\
         longitudeSteps s' = longitudeSteps s /\
         index_triangles (vertices s') (latitudeSteps s') (longitudeSteps s')
         = Some (getTriangles s')).
Proof.
  split.
  { intros r L N; split.
    - intros [s Hnew]; eapply Sphere_new_constructible; eassumption.
    - apply Sphere_new_total. }
  intros s Hreach; split.
  - destruct Hreach as [r L N s Hnew | s s' aX aY aZ _ Hrot].
    + apply Sphere_new_inv in Hnew as (s0 & _ & Hidx).
      now apply generateIndices_inv in Hidx as (_ & _ & _ & _ & ?).
    + now apply generateIndices_inv in Hrot as (_ & _ & _ & _ & ?).
  - intros aX aY aZ.
    destruct (rotate_total aX aY aZ (reachable_well_sized Hreach)) as [s' Hrot].
    exists s'; split; [assumption | ].
    now apply generateIndices_inv in Hrot as (_ & ? & ? & _ & ?).
Qed.

End SphereClaims.

(** ** Step counts with which the constructor does not complete *)

Section SphereOverflow.

Local Open Scope Z_scope.

(** C9, as stated, fails: with [latitudeSteps = INT_MAX] and
    [longitudeSteps = -1], and with [latitudeSteps = 0] and
    [longitudeSteps = INT_MAX], a step count is not positive, yet the
    test [lat <= latitudeSteps], respectively [lon <= longitudeSteps],
    holds for every [int], the counter overflows, and the constructor
    does not complete, in any arithmetic. *)
Lemma Sphere_new_no_exit :
  (INT_MAX <= 0 \/ -1 <= 0) /\ (0 <= 0 \/ INT_MAX <= 0) /\
  is_int INT_MAX /\ is_int (-1) /\ is_int 0 /\
  forall (F : Type) (ops : FloatOps F) (trig : TrigOps F)
         (dbl : DoubleOps F) (r : F),
    Sphere_new r INT_MAX (-1) = None /\ Sphere_new r 0 INT_MAX = None.
Proof.
  split; [right; lia | ]. split; [left; lia | ].
  repeat (split; [unfold is_int, INT_MIN, INT_MAX; lia | ]).
  intros F ops trig dbl r; split; apply Sphere_new_fails;
    unfold constructible, INT_MAX; lia.
Qed.

Lemma Sphere_new_unfold (F : Type) (ops : FloatOps F) (trig : TrigOps F)
    (dbl : DoubleOps F)
    (r : F) (latSteps lonSteps : Z) :
  Sphere_new r latSteps lonSteps
  = obind (generateVertices (MkSphere r latSteps lonSteps [] []))
      (@generateIndices F).
Proof. reflexivity. Qed.

(** C10, as stated, fails: with [latitudeSteps = 1] and
    [longitudeSteps = 2^30], both at least 1, [generateVertices]
    completes, but in the cell [lat = 0], [lon = 2^30 - 1] of
    [generateIndices] the sum [first + longitudeSteps] is [INT_MAX] and
    [second = first + longitudeSteps + 1] overflows: no index below the
    size of the buffer is computed, and neither [generateIndices] nor the
    constructor completes, in any arithmetic. *)
Lemma generateIndices_index_overflow :
  1 <= 1 /\ 1 <= 2 ^ 30 /\ is_int (2 ^ 30) /\
  first_index (2 ^ 30) 0 (2 ^ 30 - 1) = Some (2 ^ 30 - 1) /\
  second_index (2 ^ 30) (2 ^ 30 - 1) = None /\
  forall (F : Type) (ops : FloatOps F) (trig : TrigOps F)
         (dbl : DoubleOps F) (r : F),
    exists s,
      generateVertices (MkSphere r 1 (2 ^ 30) [] []) = Some s /\
      generateIndices s = None /\
      Sphere_new r 1 (2 ^ 30) = None.
Proof.
  split; [lia | ]. split; [lia | ].
  split; [unfold is_int, INT_MIN, INT_MAX; lia | ].
  split; [reflexivity | ]. split; [reflexivity | ].
  intros F ops trig dbl r.
  assert (Hnew : Sphere_new r 1 (2 ^ 30) = None)
    by (apply Sphere_new_fails; unfold constructible, INT_MAX; lia).
  eexists; split.
  { apply generateVertices_vertices; cbn [latitudeSteps longitudeSteps];
      unfold INT_MAX; lia. }
  split; [ | exact Hnew].
  rewrite Sphere_new_unfold in Hnew.
  rewrite generateVertices_vertices in Hnew
    by (cbn [latitudeSteps longitudeSteps]; unfold INT_MAX; lia).
  rewrite obind_Some in Hnew.
  exact Hnew.
Qed.

End SphereOverflow.

(** ** Sphere: vertices and rotations, for any arithmetic *)

Section SphereVertices.
Context {F : Type} `{FloatOps F} `{TrigOps F} {dbl : DoubleOps F}.

Local Open Scope Z_scope.

(** The three pairs of assignments of the loop body of [rotate] are the
    rotations about X, then Y, then Z. *)
Lemma rotate_vertex_rotXYZ (aX aY aZ : F) (v : vec3d F) :
  rotate_vertex (fcos aX) (fsin aX) (fcos aY) (fsin aY) (fcos aZ) (fsin aZ) v
  = rotXYZ aX aY aZ v.
Proof. reflexivity. Qed.

Lemma rotate_vertices_map (aX aY aZ : F) (vs : list (vec3d F)) :
  rotate_vertices aX aY aZ vs = map (rotXYZ aX aY aZ) vs.
Proof. reflexivity. Qed.

Lemma rotate_map (s : Sphere F) (aX aY aZ : F) :
  well_sized s ->
  exists s',
    rotate s aX aY aZ = Some s' /\ well_sized s' /\
    vertices s' = map (rotXYZ aX aY aZ) (vertices s).
Proof.
  intros Hs; destruct (rotate_total aX aY aZ Hs) as [s' Hrot].
  exists s'; split; [assumption | split].
  - eapply rotate_well_sized; eassumption.
  - now rewrite (rotate_vertices_eq _ _ _ _ Hrot), rotate_vertices_map.
Qed.

Lemma rotate_calls_map (calls : list (F * F * F)) (s : Sphere F) :
  well_sized s ->
  exists s',
    rotate_calls s calls = Some s' /\ well_sized s' /\
    vertices s' = map (compose_rotations calls) (vertices s).
Proof.
  revert s; induction calls as [ | [[aX aY] aZ] rest IH]; intros s Hs.
  - exists s; repeat split; try apply Hs.
    unfold compose_rotations; simpl; now rewrite map_id.
  - destruct (rotate_map aX aY aZ Hs) as (s1 & Hrot & Hs1 & Hv1).
    destruct (IH s1 Hs1) as (s' & Hcalls & Hs' & Hv').
    exists s'; simpl; rewrite Hrot; simpl.
    repeat split; try apply Hs'; try assumption.
    rewrite Hv', Hv1, map_map; reflexivity.
Qed.


End SphereVertices.

(** ** Two Spheres followed by hand, in arithmetic without rounding *)

Section IdealExamples.
Import Ideal.

Local Open Scope R_scope.

Lemma constructible_1_1 : constructible 1 1.
Proof. unfold constructible, INT_MAX; lia. Qed.

Lemma sphere_point_pole (lon : Z) : sphere_point 1 1 1 0 lon = Vec3d 0 1 0.
Proof.
  unfold sphere_point, polar, azimuth.
  cbn [fsin fcos fmul trig ops float_of_double ddiv dmul double_of_int
       M_PI dbl].
  replace (PI * 0 / 1) with 0 by lra.
  rewrite sin_0, cos_0; f_equal; ring.
Qed.

Lemma rotXYZ_quarter_pole :
  rotXYZ (PI / 2) 0 0 (Vec3d 0 1 0) = Vec3d 0 0 1.
Proof.
  unfold rotXYZ, rotX, rotY, rotZ;
    cbn [x y z fsin fcos fmul fadd fsub fneg trig ops].
  rewrite sin_PI2, cos_PI2, sin_0, cos_0; f_equal; ring.
Qed.

Lemma rotXYZ_quarter_twice_pole :
  rotXYZ (PI / 2) 0 0 (Vec3d 0 0 1) = Vec3d 0 (-1) 0.
Proof.
  unfold rotXYZ, rotX, rotY, rotZ;
    cbn [x y z fsin fcos fmul fadd fsub fneg trig ops].
  rewrite sin_PI2, cos_PI2, sin_0, cos_0; f_equal; ring.
Qed.

(** The first vertex of the Sphere of radius 1 with one step each way. *)
Lemma unit_sphere_first_vertex (s : Sphere R) :
  Sphere_new 1 1 1 = Some s ->
  well_sized s /\ radius s = 1 /\
  latitudeSteps s = 1%Z /\ longitudeSteps s = 1%Z /\
  exists rest, vertices s = Vec3d 0 1 0 :: rest.
Proof.
  intros Hnew; split; [eapply Sphere_new_well_sized; eassumption | ].
  destruct (Sphere_new_fields _ _ _ Hnew) as (Hr & HL & HN).
  repeat (split; [assumption | ]).
  apply Sphere_new_inv in Hnew as (s0 & Hgen & Hidx).
  apply generateIndices_inv in Hidx as (_ & _ & _ & Hv & _).
  apply generateVertices_inv in Hgen as (_ & _ & _ & _ & Hv0).
  rewrite Hv, Hv0; cbn [radius latitudeSteps longitudeSteps].
  change (Z.to_nat (1 + 1)) with 2%nat; cbn [zrange flat_map app].
  rewrite sphere_point_pole; eauto.
Qed.

(** C4, as stated, fails: two calls [rotate(PI/2, 0, 0)] on the Sphere of
    radius 1 with one step each way leave the first vertex at (0, -1, 0),
    while the originally generated vertex (0, 1, 0) rotated about X by
    PI/2 is (0, 0, 1). *)
Lemma rotate_twice_not_absolute :
  exists s0 s1 s2 v0 v2,
    Sphere_new 1 1 1 = Some s0 /\
    rotate s0 (PI / 2) 0 0 = Some s1 /\
    rotate s1 (PI / 2) 0 0 = Some s2 /\
    nth_error (vertices s0) 0 = Some v0 /\
    nth_error (vertices s2) 0 = Some v2 /\
    v2 = Vec3d 0 (-1) 0 /\
    rotXYZ (PI / 2) 0 0 v0 = Vec3d 0 0 1 /\
    vertices s2 <> map (rotXYZ (PI / 2) 0 0) (vertices s0).
Proof.
  destruct (Sphere_new_total (F := R) 1 constructible_1_1) as [s0 Hnew].
  destruct (unit_sphere_first_vertex Hnew) as (Hs0 & _ & _ & _ & rest & Hv0).
  destruct (rotate_map (PI / 2) 0 0 Hs0) as (s1 & Hrot1 & Hs1 & Hv1).
  destruct (rotate_map (PI / 2) 0 0 Hs1) as (s2 & Hrot2 & _ & Hv2).
  exists s0, s1, s2, (Vec3d 0 1 0), (Vec3d 0 (-1) 0).
  rewrite Hv2, Hv1, Hv0; simpl.
  rewrite rotXYZ_quarter_pole, rotXYZ_quarter_twice_pole.
  repeat split; try assumption.
  intros [= E _]; lra.
Qed.

(** C6, as stated, fails: [generateVertices] is a public operation too, and
    called after a rotation it regenerates the vertex buffer while the
    triangle list still holds copies of the rotated vertices. *)
Lemma generateVertices_leaves_stale_triangles :
  exists s0 s1 s2,
    Sphere_new 1 1 1 = Some s0 /\
    rotate s0 (PI / 2) 0 0 = Some s1 /\
    generateVertices s1 = Some s2 /\
    index_triangles (vertices s2) (latitudeSteps s2) (longitudeSteps s2)
    <> Some (getTriangles s2).
Proof.
  destruct (Sphere_new_total (F := R) 1 constructible_1_1) as [s0 Hnew].
  destruct (unit_sphere_first_vertex Hnew)
    as (Hs0 & Hr0 & HL0 & HN0 & rest & Hv0).
  destruct (rotate_map (PI / 2) 0 0 Hs0) as (s1 & Hrot1 & Hs1 & Hv1).
  destruct (generateVertices_well_sized s1 (proj2 Hs1)) as (s2 & Hgen & Hs2).
  exists s0, s1, s2; repeat (split; [assumption | ]).
  intros Heq.
  destruct (rotate_fields _ _ _ _ Hrot1) as (Hr1 & HL1 & HN1 & Htri1).
  rewrite Hr0 in Hr1; rewrite HL0 in HL1; rewrite HN0 in HN1.
  (* the triangle list of [s1] starts at the rotated first vertex *)
  assert (Ha1 : at_index (vertices s1) 0 = Some (Vec3d 0 0 1)).
  { rewrite Hv1, Hv0; simpl; now rewrite rotXYZ_quarter_pole. }
  destruct (first_triangle Hs1 ltac:(lia) ltac:(lia) Htri1 Ha1)
    as (t & Ht & Hp).
  (* rebuilt from [s2] it would start at the regenerated first vertex *)
  assert (Ha2 : at_index (vertices s2) 0 = Some (Vec3d 0 1 0)).
  { replace 0%Z with (0 * (longitudeSteps s1 + 1) + 0)%Z by lia.
    rewrite (generateVertices_at _ Hgen) by lia.
    now rewrite Hr1, HL1, HN1, sphere_point_pole. }
  destruct (generateVertices_inv _ Hgen) as (_ & HL2 & HN2 & Ht2 & _).
  assert (HL2' : (1 <= latitudeSteps s2)%Z) by lia.
  assert (HN2' : (1 <= longitudeSteps s2)%Z) by lia.
  destruct (first_triangle Hs2 HL2' HN2' Heq Ha2) as (t' & Ht' & Hp').
  unfold getTriangles in Ht'; rewrite Ht2 in Ht'.
  rewrite Ht in Ht'; injection Ht' as <-.
  rewrite Hp in Hp'; injection Hp' as E _; lra.
Qed.

End IdealExamples.

(** ** DrawLine *)

Section DrawLineFacts.

Local Open Scope Z_scope.

Example DrawLine_diagonal :
  DrawLine 20 [] 3 (-2) (-4) 5 7
  = Some [(3, -2, 7); (2, -1, 7); (1, 0, 7); (0, 1, 7);
          (-1, 2, 7); (-2, 3, 7); (-3, 4, 7); (-4, 5, 7)].
Proof. reflexivity. Qed.

Example DrawLine_out_of_fuel : DrawLine 5 [] 0 0 5 0 7 = None.
Proof. reflexivity. Qed.

(** C7: [DrawLine] from (0,0) to (5,0) makes exactly the six [SetPixel]
    calls (0,0), (1,0), (2,0), (3,0), (4,0), (5,0), in this order and each
    with the given color, and [DrawLine] from (2,2) to (2,2) makes exactly
    one, (2,2); six, respectively one, iterations of the loop suffice and
    more change nothing. *)
Theorem DrawLine_examples (hdc : HDC) (color : COLORREF) (extra : nat) :
  DrawLine (6 + extra) hdc 0 0 5 0 color
  = Some (hdc ++ [(0, 0, color); (1, 0, color); (2, 0, color);
                  (3, 0, color); (4, 0, color); (5, 0, color)]) /\
  DrawLine (1 + extra) hdc 2 2 2 2 color = Some (hdc ++ [(2, 2, color)]).
Proof.
  split.
  - unfold DrawLine; simpl; unfold DrawPixel, SetPixel.
    now rewrite <- !app_assoc.
  - reflexivity.
Qed.

Lemma line_path_head (sx sy : Z) (color : COLORREF) (x2 y2 x y : Z)
    (pixels : list (Z * Z * COLORREF)) :
  line_path sx sy color x2 y2 x y pixels ->
  hd_error pixels = Some (x, y, color).
Proof. destruct 1; reflexivity. Qed.

Lemma line_path_last (sx sy : Z) (color : COLORREF) (x2 y2 x y : Z)
    (pixels : list (Z * Z * COLORREF)) (d : Z * Z * COLORREF) :
  line_path sx sy color x2 y2 x y pixels ->
  last pixels d = (x2, y2, color).
Proof.
  induction 1 as [ | x y x' y' rest Hx Hy Hmove Hrest IH]; [reflexivity | ].
  destruct Hrest; exact IH.
Qed.

Lemma line_path_colors (sx sy : Z) (color : COLORREF) (x2 y2 x y : Z)
    (pixels : list (Z * Z * COLORREF)) :
  line_path sx sy color x2 y2 x y pixels ->
  Forall (fun p => snd p = color) pixels.
Proof. induction 1; constructor; auto. Qed.

(** The loop, started with [a] moves left to make in x and [b] in y, the
    error term these determine, and a line short enough for the error
    term to stay an [int], overflows nowhere and reaches the [break]
    within [a + b + 1] iterations; it advances along the longer side at
    every iteration and keeps every pixel on track. *)
Lemma DrawLine_loop_run (fuel : nat) :
  forall (hdc : HDC) (x2 y2 dx sx dy sy : Z) (color : COLORREF) (a b : Z),
    0 <= dx -> dy <= 0 -> sx = 1 \/ sx = -1 -> sy = 1 \/ sy = -1 ->
    0 <= a <= dx -> 0 <= b <= - dy ->
    - Z.max dx (- dy) <= 2 * (dx * b + dy * a) <= Z.max dx (- dy) ->
    3 * Z.max dx (- dy) <= INT_MAX ->
    is_int x2 -> is_int (x2 - sx * dx) ->
    is_int y2 -> is_int (y2 - sy * (- dy)) ->
    (Z.to_nat (a + b) < fuel)%nat ->
    exists pixels,
      DrawLine_loop fuel hdc (x2 - sx * a) (y2 - sy * b) x2 y2 dx sx dy sy
        (dx + dy - dx * b - dy * a) color
      = Some (hdc ++ pixels) /\
      line_path sx sy color x2 y2 (x2 - sx * a) (y2 - sy * b) pixels /\
      length pixels = (Z.to_nat (Z.max a b) + 1)%nat /\
      Forall (on_track x2 y2 dx sx dy sy) pixels.
Proof.
  induction fuel as [ | fuel IH];
    intros hdc x2 y2 dx sx dy sy color a b Hdx Hdy Hsx Hsy Ha Hb Hinv
           Hshort Hx2 Hx1 Hy2 Hy1 Hfuel;
    [lia | ].
  assert (Hhere : on_track x2 y2 dx sx dy sy (x2 - sx * a, y2 - sy * b, color)).
  { exists a, b; cbn [fst snd]; repeat split; try reflexivity; lia. }
  cbn [DrawLine_loop]; unfold DrawPixel, SetPixel.
  set (X := x2 - sx * a) in *. set (Y := y2 - sy * b) in *.
  set (err := dx + dy - dx * b - dy * a).
  destruct (Z.eqb_spec X x2) as [HX | HX], (Z.eqb_spec Y y2) as [HY | HY];
    cbn [andb].
  { exists [(X, Y, color)]; split; [reflexivity | ].
    assert (a = 0) by (subst X; destruct Hsx; subst sx; lia).
    assert (b = 0) by (subst Y; destruct Hsy; subst sy; lia).
    subst a b; split; [rewrite HX, HY; constructor | ].
    split; [reflexivity | ]. constructor; [assumption | constructor]. }
  all: assert (Hab : 0 < a + b)
    by (subst X Y; destruct Hsx, Hsy; subst sx sy; lia).
  all: assert (He2 : is_int (2 * err))
    by (subst err; unfold is_int, INT_MIN, INT_MAX in *; lia).
  all: rewrite (int_in_range He2); cbn [obind].
  all: rewrite Z.geb_leb;
    destruct (Z.leb_spec dy (2 * err)) as [Hex | Hex],
             (Z.leb_spec (2 * err) dx) as [Hey | Hey];
    try (exfalso; subst X Y err; nia).
  all: try (assert (Ha1 : 1 <= a) by (subst X Y err; nia)).
  all: try (assert (Hb1 : 1 <= b) by (subst X Y err; nia)).
  all: repeat (rewrite int_in_range
                 by (subst X Y err; unfold is_int, INT_MIN, INT_MAX in *;
                     destruct Hsx, Hsy; subst sx sy; lia);
               cbn [obind]).
  all: match goal with
       | |- context [DrawLine_loop _ ?h ?u ?v _ _ _ _ _ _ ?e _] =>
         first
           [ replace u with (x2 - sx * (a - 1)) by (subst X; ring);
             replace v with (y2 - sy * (b - 1)) by (subst Y; ring);
             replace e with (dx + dy - dx * (b - 1) - dy * (a - 1))
               by (subst err; ring);
             destruct (IH h x2 y2 dx sx dy sy color (a - 1) (b - 1))
               as (rest & Hrun & Hpath & Hlen & Hall);
             [try assumption; try (subst err; nia) .. | ]
           | replace u with (x2 - sx * (a - 1)) by (subst X; ring);
             replace e with (dx + dy - dx * b - dy * (a - 1))
               by (subst err; ring);
             destruct (IH h x2 y2 dx sx dy sy color (a - 1) b)
               as (rest & Hrun & Hpath & Hlen & Hall);
             [try assumption; try (subst err; nia) .. | ]
           | replace v with (y2 - sy * (b - 1)) by (subst Y; ring);
             replace e with (dx + dy - dx * (b - 1) - dy * a)
               by (subst err; ring);
             destruct (IH h x2 y2 dx sx dy sy color a (b - 1))
               as (rest & Hrun & Hpath & Hlen & Hall);
             [try assumption; try (subst err; nia) .. | ] ]
       end.
  all: exists ((X, Y, color) :: rest); fold X in Hrun; fold Y in Hrun.
  all: split; [rewrite Hrun, <- app_assoc; reflexivity | ].
  all: split;
    [eapply path_step; [ | | | exact Hpath]; subst X Y; nia | ].
  all: split; [ | constructor; assumption ].
  all: cbn [length]; rewrite Hlen.
  all: subst err X Y; nia.
Qed.

(** Once the [break] is reached, more iterations allowed change nothing. *)
Lemma DrawLine_loop_more_fuel (fuel extra : nat) :
  forall (hdc : HDC) (x1 y1 x2 y2 dx sx dy sy err : Z) (color : COLORREF)
         (out : HDC),
    DrawLine_loop fuel hdc x1 y1 x2 y2 dx sx dy sy err color = Some out ->
    DrawLine_loop (fuel + extra) hdc x1 y1 x2 y2 dx sx dy sy err color = Some out.
Proof.
  induction fuel as [ | fuel IH]; intros hdc x1 y1 x2 y2 dx sx dy sy err color out;
    [discriminate | ].
  cbn [DrawLine_loop Nat.add].
  destruct ((x1 =? x2) && (y1 =? y2))%bool; [trivial | ].
  destruct (int (2 * err)) as [e2 | ]; cbn [obind]; [ | discriminate].
  destruct (e2 >=? dy);
    [destruct (int (err + dy)) as [err1 | ]; cbn [obind]; [ | discriminate];
     destruct (int (x1 + sx)) as [x1' | ]; cbn [obind]; [ | discriminate]
    | cbn [obind] ];
    (destruct (e2 <=? dx);
     [match goal with
      | |- context [int (?e + dx)] =>
        destruct (int (e + dx)) as [err2 | ]; cbn [obind]; [ | discriminate]
      end;
      destruct (int (y1 + sy)) as [y1' | ]; cbn [obind]; [ | discriminate]
     | cbn [obind] ]);
    apply IH.
Qed.

(** The initialisations of [DrawLine], on a line short enough. *)
Lemma DrawLine_start (fuel : nat) (hdc : HDC) (x1 y1 x2 y2 : Z)
    (color : COLORREF) :
  is_int x1 -> is_int y1 -> is_int x2 -> is_int y2 ->
  3 * Z.max (Z.abs (x2 - x1)) (Z.abs (y2 - y1)) <= INT_MAX ->
  DrawLine fuel hdc x1 y1 x2 y2 color
  = DrawLine_loop fuel hdc x1 y1 x2 y2
      (Z.abs (x2 - x1)) (if x1 <? x2 then 1 else -1)
      (- Z.abs (y2 - y1)) (if y1 <? y2 then 1 else -1)
      (Z.abs (x2 - x1) + - Z.abs (y2 - y1)) color.
Proof.
  intros Hx1 Hy1 Hx2 Hy2 Hshort; unfold DrawLine.
  repeat (rewrite int_in_range
            by (unfold is_int, INT_MIN, INT_MAX in *; lia);
          cbn [obind]).
  reflexivity.
Qed.

(** The pixels of a [DrawLine] on a line short enough, with their number
    and their position relative to the segment. *)
Lemma DrawLine_shape (hdc : HDC) (x1 y1 x2 y2 : Z) (color : COLORREF) :
  is_int x1 -> is_int y1 -> is_int x2 -> is_int y2 ->
  3 * Z.max (Z.abs (x2 - x1)) (Z.abs (y2 - y1)) <= INT_MAX ->
  exists pixels,
    (forall extra : nat,
       DrawLine (line_fuel x1 y1 x2 y2 + extra)%nat hdc x1 y1 x2 y2 color
       = Some (hdc ++ pixels)) /\
    line_path (if x1 <? x2 then 1 else -1) (if y1 <? y2 then 1 else -1)
      color x2 y2 x1 y1 pixels /\
    length pixels
    = (Z.to_nat (Z.max (Z.abs (x2 - x1)) (Z.abs (y2 - y1))) + 1)%nat /\
    Forall (on_track x2 y2 (Z.abs (x2 - x1)) (if x1 <? x2 then 1 else -1)
              (- Z.abs (y2 - y1)) (if y1 <? y2 then 1 else -1)) pixels.
Proof.
  intros Hx1 Hy1 Hx2 Hy2 Hshort.
  set (sx := if x1 <? x2 then 1 else -1).
  set (sy := if y1 <? y2 then 1 else -1).
  set (dx := Z.abs (x2 - x1)) in *. set (dy := - Z.abs (y2 - y1)).
  assert (Hsx : sx = 1 \/ sx = -1) by (subst sx; destruct (x1 <? x2); auto).
  assert (Hsy : sy = 1 \/ sy = -1) by (subst sy; destruct (y1 <? y2); auto).
  assert (Hx : x2 - sx * dx = x1)
    by (subst sx dx; destruct (Z.ltb_spec x1 x2); lia).
  assert (Hy : y2 - sy * (- dy) = y1)
    by (subst sy dy; destruct (Z.ltb_spec y1 y2); lia).
  assert (Herr : dx + dy - dx * (- dy) - dy * dx = dx + dy) by ring.
  destruct (@DrawLine_loop_run (line_fuel x1 y1 x2 y2) hdc x2 y2
              dx sx dy sy color dx (- dy))
    as (pixels & Hloop & Hpath & Hlen & Hall);
    try (subst dx dy; unfold line_fuel; lia); try assumption;
    try (rewrite Hx; assumption); try (rewrite Hy; assumption).
  rewrite Hx, Hy, Herr in Hloop; rewrite Hx, Hy in Hpath.
  exists pixels; split; [ | split; [exact Hpath | split; [ | exact Hall] ] ].
  - intros extra; rewrite DrawLine_start by assumption.
    apply DrawLine_loop_more_fuel; exact Hloop.
  - rewrite Hlen; subst dx dy; rewrite Z.opp_involutive; reflexivity.
Qed.

(** C8 (amended): for [int] endpoints with
    [3 * max(|x2 - x1|, |y2 - y1|) <= INT_MAX] no operation of [DrawLine]
    overflows and its loop reaches the [break]: [line_fuel] iterations
    suffice and more change nothing.  The calls to [SetPixel] it makes
    start with [(x1, y1)] and end with [(x2, y2)], all with the given
    color, and between two consecutive calls x has moved by [sx] or not at
    all and y by [sy] or not at all, one of them at least. *)
Theorem DrawLine_terminates (hdc : HDC) (x1 y1 x2 y2 : Z) (color : COLORREF) :
  is_int x1 -> is_int y1 -> is_int x2 -> is_int y2 ->
  3 * Z.max (Z.abs (x2 - x1)) (Z.abs (y2 - y1)) <= INT_MAX ->
  let sx := if x1 <? x2 then 1 else -1 in
  let sy := if y1 <? y2 then 1 else -1 in
  exists pixels,
    (forall extra : nat,
       DrawLine (line_fuel x1 y1 x2 y2 + extra)%nat hdc x1 y1 x2 y2 color
       = Some (hdc ++ pixels)) /\
    line_path sx sy color x2 y2 x1 y1 pixels /\
    hd_error pixels = Some (x1, y1, color) /\
    last pixels (x1, y1, color) = (x2, y2, color) /\
    Forall (fun p => snd p = color) pixels /\
    (length pixels <= line_fuel x1 y1 x2 y2)%nat.
Proof.
  intros Hx1 Hy1 Hx2 Hy2 Hshort sx sy.
  destruct (DrawLine_shape hdc color Hx1 Hy1 Hx2 Hy2 Hshort)
    as (pixels & Hrun & Hpath & Hlen & _).
  exists pixels; split; [exact Hrun | ].
  repeat split; try assumption.
  - eapply line_path_head; eassumption.
  - eapply line_path_last; eassumption.
  - eapply line_path_colors; eassumption.
  - rewrite Hlen; unfold line_fuel; lia.
Qed.

Lemma DrawLine_terminates_witness :
  is_int 0 /\ is_int 5 /\ is_int 3 /\
  3 * Z.max (Z.abs (5 - 0)) (Z.abs (3 - 0)) <= INT_MAX /\
  exists pixels,
    DrawLine (line_fuel 0 0 5 3) [] 0 0 5 3 255 = Some pixels /\
    last pixels (0, 0, 255) = (5, 3, 255).
Proof.
  assert (H0 : is_int 0) by (unfold is_int, INT_MIN, INT_MAX; lia).
  assert (H5 : is_int 5) by (unfold is_int, INT_MIN, INT_MAX; lia).
  assert (H3 : is_int 3) by (unfold is_int, INT_MIN, INT_MAX; lia).
  assert (Hshort : 3 * Z.max (Z.abs (5 - 0)) (Z.abs (3 - 0)) <= INT_MAX)
    by (unfold INT_MAX; lia).
  split; [exact H0 | split; [exact H5 | split; [exact H3 | split; [exact Hshort | ] ] ] ].
  destruct (DrawLine_terminates [] 255 H0 H0 H5 H3 Hshort)
    as (pixels & Hrun & _ & _ & Hlast & _).
  exists pixels; split; [ | exact Hlast].
  rewrite <- (Nat.add_0_r (line_fuel 0 0 5 3)); exact (Hrun 0%nat).
Defined.

(** C8, as stated, fails: the endpoints (0, 0) and (2^30 + 1, 0) are
    [int]s, but [err] starts at [2^30 + 1] and [2 * err] overflows in the
    first iteration, whatever the number of iterations allowed. *)
Lemma DrawLine_long_line_overflows :
  is_int 0 /\ is_int (2 ^ 30 + 1) /\
  int (2 * (2 ^ 30 + 1)) = None /\
  forall (fuel : nat) (hdc : HDC) (color : COLORREF),
    DrawLine fuel hdc 0 0 (2 ^ 30 + 1) 0 color = None.
Proof.
  split; [unfold is_int, INT_MIN, INT_MAX; lia | ].
  split; [unfold is_int, INT_MIN, INT_MAX; lia | ].
  split; [reflexivity | ].
  intros [ | fuel] hdc color; reflexivity.
Qed.

Lemma on_track_near_line (x1 y1 x2 y2 : Z) (p : Z * Z * COLORREF) :
  on_track x2 y2 (Z.abs (x2 - x1)) (if x1 <? x2 then 1 else -1)
    (- Z.abs (y2 - y1)) (if y1 <? y2 then 1 else -1) p ->
  near_line x1 y1 x2 y2 p.
Proof.
  intros (a & b & Hx & Hy & Ha & Hb & Hinv).
  destruct p as [[x y] c]; cbn [fst snd] in *; unfold near_line; cbn [fst snd].
  rewrite Z.opp_involutive in Hb, Hinv.
  destruct (Z.ltb_spec x1 x2) as [Hlx | Hlx], (Z.ltb_spec y1 y2) as [Hly | Hly].
  - rewrite (Z.abs_eq (x2 - x1)), (Z.abs_eq (y2 - y1)) in * by lia.
    replace ((x2 - x1) * (y - y1) - (y2 - y1) * (x - x1))
      with (- ((x2 - x1) * b + - (y2 - y1) * a)) by (subst x y; ring).
    lia.
  - rewrite (Z.abs_eq (x2 - x1)), (Z.abs_neq (y2 - y1)) in * by lia.
    replace ((x2 - x1) * (y - y1) - (y2 - y1) * (x - x1))
      with ((x2 - x1) * b + - - (y2 - y1) * a) by (subst x y; ring).
    lia.
  - rewrite (Z.abs_neq (x2 - x1)), (Z.abs_eq (y2 - y1)) in * by lia.
    replace ((x2 - x1) * (y - y1) - (y2 - y1) * (x - x1))
      with (- (x2 - x1) * b + - (y2 - y1) * a) by (subst x y; ring).
    lia.
  - rewrite (Z.abs_neq (x2 - x1)), (Z.abs_neq (y2 - y1)) in * by lia.
    replace ((x2 - x1) * (y - y1) - (y2 - y1) * (x - x1))
      with (- (- (x2 - x1) * b + - - (y2 - y1) * a)) by (subst x y; ring).
    lia.
Qed.

(** X1: on [int] endpoints with
    [3 * max(|x2-x1|, |y2-y1|) <= INT_MAX], a [DrawLine] makes exactly
    [max(|x2-x1|, |y2-y1|) + 1] calls to [SetPixel], all after the calls
    already made on the device context: one pixel per unit of the longer
    side of the bounding box. *)
Theorem DrawLine_pixel_count (hdc : HDC) (x1 y1 x2 y2 : Z) (color : COLORREF) :
  is_int x1 -> is_int y1 -> is_int x2 -> is_int y2 ->
  3 * Z.max (Z.abs (x2 - x1)) (Z.abs (y2 - y1)) <= INT_MAX ->
  exists pixels,
    (forall extra : nat,
       DrawLine (line_fuel x1 y1 x2 y2 + extra)%nat hdc x1 y1 x2 y2 color
       = Some (hdc ++ pixels)) /\
    Z.of_nat (length pixels) = Z.max (Z.abs (x2 - x1)) (Z.abs (y2 - y1)) + 1.
Proof.
  intros Hx1 Hy1 Hx2 Hy2 Hshort.
  destruct (DrawLine_shape hdc color Hx1 Hy1 Hx2 Hy2 Hshort)
    as (pixels & Hrun & _ & Hlen & _).
  exists pixels; split; [exact Hrun | ].
  rewrite Hlen; lia.
Qed.

(** X2: on [int] endpoints with
    [3 * max(|x2-x1|, |y2-y1|) <= INT_MAX], every pixel [(x, y)] a
    [DrawLine] sets lies in the bounding box of the two endpoints and
    within half a pixel of the segment along its shorter side:
    [2 * |(x2-x1) * (y-y1) - (y2-y1) * (x-x1)| <= max(|x2-x1|, |y2-y1|)]. *)
Theorem DrawLine_follows_segment (hdc : HDC) (x1 y1 x2 y2 : Z) (color : COLORREF) :
  is_int x1 -> is_int y1 -> is_int x2 -> is_int y2 ->
  3 * Z.max (Z.abs (x2 - x1)) (Z.abs (y2 - y1)) <= INT_MAX ->
  exists pixels,
    (forall extra : nat,
       DrawLine (line_fuel x1 y1 x2 y2 + extra)%nat hdc x1 y1 x2 y2 color
       = Some (hdc ++ pixels)) /\
    forall x y c,
      In (x, y, c) pixels ->
      2 * Z.abs ((x2 - x1) * (y - y1) - (y2 - y1) * (x - x1))
      <= Z.max (Z.abs (x2 - x1)) (Z.abs (y2 - y1)) /\
      Z.min x1 x2 <= x <= Z.max x1 x2 /\
      Z.min y1 y2 <= y <= Z.max y1 y2.
Proof.
  intros Hx1 Hy1 Hx2 Hy2 Hshort.
  destruct (DrawLine_shape hdc color Hx1 Hy1 Hx2 Hy2 Hshort)
    as (pixels & Hrun & _ & _ & Hall).
  exists pixels; split; [exact Hrun | ].
  intros x y c Hin.
  rewrite Forall_forall in Hall.
  exact (on_track_near_line _ _ (Hall _ Hin)).
Qed.

End DrawLineFacts.

(** ** DrawTriangle *)

Section DrawTriangleFacts.
Context {F : Type} `{FloatOps F} `{FloatCast F}.

Local Open Scope Z_scope.







End DrawTriangleFacts.

(** ** binary32: casts between [int] and [float] *)

Module Binary32CastFacts.
Import Binary32 Binary32Facts Binary32Engine.

Local Open Scope Z_scope.

Lemma iter_xO_value (p k : positive) :
  Z.pos (Pos.iter xO p k) = Z.pos p * 2 ^ Z.pos k.
Proof.
  induction k as [ | k IH] using Pos.peano_ind.
  - cbn [Pos.iter]. rewrite Pos2Z.inj_xO. change (2 ^ 1) with 2. ring.
  - rewrite Pos.iter_succ, Pos2Z.inj_xO, IH, Pos2Z.inj_succ, Z.pow_succ_r by lia.
    ring.
Qed.

Lemma iter_xO_digits (p k : positive) :
  Z.pos (digits2_pos (Pos.iter xO p k)) = Z.pos (digits2_pos p) + Z.pos k.
Proof.
  induction k as [ | k IH] using Pos.peano_ind.
  - cbn [Pos.iter digits2_pos]. lia.
  - rewrite Pos.iter_succ; cbn [digits2_pos].
    rewrite Pos2Z.inj_succ, IH; lia.
Qed.

(** A full mantissa with an exponent in range is not rounded. *)
Lemma binary_round_aux_exact (s : bool) (m : positive) (e : Z) :
  Z.pos (digits2_pos m) = 24 -> -149 <= e <= 104 ->
  binary_round_aux prec emax s (Z.pos m) e loc_Exact = S754_finite s m e.
Proof.
  intros Hd He.
  assert (Hshift : fexp prec emax (Zdigits2 (Z.pos m) + e) - e = 0).
  { cbn [Zdigits2]; rewrite Hd; unfold fexp, emin, prec, emax; lia. }
  unfold binary_round_aux, shr_fexp.
  rewrite Hshift; cbn [shr shr_record_of_loc shr_m loc_of_shr_record
                         round_nearest_even].
  rewrite Hshift; cbn [shr shr_record_of_loc shr_m].
  replace (e <=? emax - prec) with true; [reflexivity | ].
  symmetry; apply Z.leb_le; unfold emax, prec; lia.
Qed.

(** The float of a positive integer below [2 ^ 24] is that integer. *)
Lemma binary_round_small (s : bool) (p : positive) :
  Z.pos (digits2_pos p) <= 24 ->
  exists (m : positive) (k : Z),
    binary_round prec emax s p 0 = S754_finite s m (- k) /\
    0 <= k <= 23 /\ Z.pos m = Z.pos p * 2 ^ k.
Proof.
  intros Hd.
  assert (Hd1 : 1 <= Z.pos (digits2_pos p)) by lia.
  unfold binary_round, shl_align.
  replace (fexp prec emax (Z.pos (digits2_pos p) + 0))
    with (Z.pos (digits2_pos p) - 24)
    by (unfold fexp, emin, prec, emax; lia).
  rewrite Z.sub_0_r.
  destruct (Z.pos (digits2_pos p) - 24) as [ | q | q] eqn:Eq; try lia.
  - exists p, 0; rewrite binary_round_aux_exact by lia.
    repeat split; lia.
  - exists (Pos.iter xO p q), (Z.pos q).
    rewrite binary_round_aux_exact.
    + repeat split; try lia. apply iter_xO_value.
    + rewrite iter_xO_digits; lia.
    + lia.
Qed.

Lemma int_of_float_scaled (s : bool) (m : positive) (k n : Z) :
  0 <= k -> Z.pos m = n * 2 ^ k -> 0 < n <= INT_MAX ->
  int_of_float (S754_finite s m (- k)) = Some (if s then - n else n).
Proof.
  intros Hk Hm Hn; unfold int_of_float.
  rewrite Z.shiftl_div_pow2 by lia.
  rewrite Z.opp_involutive, Hm, Z.div_mul by (apply Z.pow_nonzero; lia).
  unfold INT_MIN, INT_MAX in *.
  destruct s.
  - replace ((- 2 ^ 31 <=? - n) && (- n <=? 2 ^ 31 - 1))%bool with true;
      [reflexivity | ].
    symmetry; apply andb_true_intro; split; apply Z.leb_le; lia.
  - replace ((- 2 ^ 31 <=? n) && (n <=? 2 ^ 31 - 1))%bool with true;
      [reflexivity | ].
    symmetry; apply andb_true_intro; split; apply Z.leb_le; lia.
Qed.

Lemma digits_below (p : positive) :
  Z.pos p < 2 ^ 24 -> Z.pos (digits2_pos p) <= 24.
Proof.
  intros Hp; pose proof (digits2_pos_bounds p) as Hb.
  destruct (Z_le_gt_dec (Z.pos (digits2_pos p)) 24) as [ | Hgt]; [assumption | ].
  pose proof (Z.pow_le_mono_r 2 24 (Z.pos (digits2_pos p) - 1)
                ltac:(lia) ltac:(lia)).
  lia.
Qed.

(** Floats that compare equal are cast to the same [int]. *)
Lemma int_of_float_feq (a b : float) :
  feq a b = true -> int_of_float a = int_of_float b.
Proof.
  unfold feq, SFeqb.
  destruct a as [sa | sa | | sa ma ea], b as [sb | sb | | sb mb eb];
    cbn [SFcompare]; try discriminate; try reflexivity;
    try (destruct sa; discriminate); try (destruct sb; discriminate).
  destruct sa, sb; try discriminate;
    destruct (ea ?= eb) eqn:Ee; try discriminate;
    destruct (Pos.compare_cont Eq ma mb) eqn:Em; try discriminate;
    apply Z.compare_eq in Ee; apply Pos.compare_eq in Em; subst;
    reflexivity.
Qed.

(** Conversion to [float] and back, on the integers a float holds. *)
Lemma int_of_float_of_int (n : Z) :
  Z.abs n <= 2 ^ 24 -> int_of_float (float_of_int n) = Some n.
Proof.
  intros Hn.
  destruct (Z.eq_dec (Z.abs n) (2 ^ 24)) as [Htop | Htop].
  { assert (Hcases : n = 16777216 \/ n = -16777216) by lia.
    destruct Hcases as [-> | ->]; reflexivity. }
  assert (Hlt : Z.abs n < 2 ^ 24) by lia.
  destruct n as [ | p | p]; [reflexivity | | ];
    unfold float_of_int, binary_normalize;
    destruct (binary_round_small false p) as (m & k & Hr & Hk & Hm);
    try (apply digits_below; lia);
    destruct (binary_round_small true p) as (m' & k' & Hr' & Hk' & Hm');
    try (apply digits_below; lia).
  - rewrite Hr.
    apply (@int_of_float_scaled false m k (Z.pos p)); unfold INT_MAX; lia.
  - rewrite Hr'.
    apply (@int_of_float_scaled true m' k' (Z.pos p)); unfold INT_MAX; lia.
Qed.

End Binary32CastFacts.

Module Binary32Casts.
Import Binary32 Binary32Facts Binary32Engine Binary32Aux Binary32CastFacts.

Local Open Scope Z_scope.

(** X4: in binary32 an [int] of absolute value at most [2 ^ 24] survives
    the conversion to [float] (as [centerX] in [projectTo2D]) followed by
    the cast back to [int] (as in [DrawTriangle]): [(int)(float) n = n]. *)
Theorem int_float_int (n : Z) :
  Z.abs n <= 2 ^ 24 -> int_of_float (float_of_int n) = Some n.
Proof.
  intros Hn; apply int_of_float_of_int; exact Hn.
Qed.

Lemma int_float_int_witness :
  Z.abs 400 <= 2 ^ 24 /\ int_of_float (float_of_int 400) = Some 400.
Proof.
  assert (H : Z.abs 400 <= 2 ^ 24) by (vm_compute; discriminate).
  split; [exact H | exact (int_float_int 400 H)].
Defined.

End Binary32Casts.

(** ** binary32: what the redraw does with one triangle *)

Module Binary32Paint.
Import Binary32 Binary32Facts Binary32Engine Binary32Aux Binary32CastFacts.

Lemma perspective_denominator_zero :
  (of_int 1 + of_int (-560) / (fov * of_int 8))%fl = zero.
Proof. reflexivity. Qed.

Lemma aspectRatio_binary32 :
  aspectRatio (F := float) = S754_finite false 14913081 (-23).
Proof. reflexivity. Qed.

Lemma div_zero_non_finite (a : float) (s : bool) :
  non_finite (a / S754_zero s)%fl = true.
Proof. destruct a; reflexivity. Qed.

Lemma mul_aspect_non_finite (a : float) :
  non_finite a = true -> non_finite (a * aspectRatio)%fl = true.
Proof.
  rewrite aspectRatio_binary32; destruct a; try discriminate; reflexivity.
Qed.

Lemma add_non_finite_r (a b : float) :
  non_finite a = true -> non_finite (b + a)%fl = true.
Proof.
  destruct a as [ | sa | | ]; try discriminate; intros _;
    destruct b as [ | sb | | ]; try reflexivity.
  destruct sa, sb; reflexivity.
Qed.

Lemma sub_non_finite_r (a b : float) :
  non_finite a = true -> non_finite (b - a)%fl = true.
Proof.
  destruct a as [ | sa | | ]; try discriminate; intros _;
    destruct b as [ | sb | | ]; try reflexivity.
  destruct sa, sb; reflexivity.
Qed.

Lemma add_non_finite_l (a b : float) :
  non_finite a = true -> non_finite (a + b)%fl = true.
Proof.
  destruct a as [ | sa | | ]; try discriminate; intros _;
    destruct b as [ | sb | | ]; try reflexivity.
  destruct sa, sb; reflexivity.
Qed.

Lemma non_finite_cast (a : float) : non_finite a = true -> int_of_float a = None.
Proof. destruct a; try discriminate; reflexivity. Qed.

(** A corner whose cast is undefined leaves [DrawTriangle] undefined. *)
Lemma DrawTriangle_undefined (fuel : nat) (hdc : HDC) (q1 q2 q3 : vec3d float)
    (color : COLORREF) :
  to_int (x q1) = None \/ to_int (x q2) = None \/ to_int (x q3) = None ->
  Engine.DrawTriangle fuel hdc q1 q2 q3 color = None.
Proof.
  intros Hnone; unfold Engine.DrawTriangle.
  destruct (to_int (x q1)) as [x1 | ]; [ | reflexivity]; cbn [obind].
  destruct (to_int (y q1)) as [y1 | ]; [ | reflexivity]; cbn [obind].
  destruct (to_int (x q2)) as [x2 | ]; [ | reflexivity]; cbn [obind].
  destruct (to_int (y q2)) as [y2 | ]; [ | reflexivity]; cbn [obind].
  destruct (DrawLine fuel hdc x1 y1 x2 y2 color) as [hdc1 | ];
    [ | reflexivity]; cbn [obind].
  destruct (to_int (x q3)) as [x3 | ]; [ | reflexivity]; cbn [obind].
  destruct Hnone as [Hn | [Hn | Hn] ]; discriminate.
Qed.

Lemma projection_non_finite (p : vec3d float) (cX cY : Z) (mX mY : float) :
  z p = of_int (-560) ->
  let q := projectTo2D p cX cY (of_int 8) mX mY in
  non_finite (x q) = true /\ non_finite (y q) = true.
Proof.
  intros Hz q; subst q; rewrite projectTo2D_unfold; cbn [x y z].
  change (of_int 70) with (fov (F := float)).
  change (of_int 16 / of_int 9)%fl with (aspectRatio (F := float)).
  rewrite Hz, perspective_denominator_zero; unfold zero; split.
  - apply add_non_finite_l, add_non_finite_r, mul_aspect_non_finite,
      div_zero_non_finite.
  - apply add_non_finite_l, sub_non_finite_r, mul_aspect_non_finite,
      div_zero_non_finite.
Qed.

(** X5: in binary32, at the scale 8 of the redraw, a vertex with
    [z = -560] makes the perspective denominator [1 + z / (70 * 8)] zero;
    whatever its other coordinates, the screen centre and the offsets,
    both projected coordinates are an infinity or a NaN, their casts to
    [int] are undefined, and so is the drawing of any triangle with such a
    corner. *)
Theorem projection_plane_undefined (p : vec3d float) (cX cY : Z)
    (mX mY : float) :
  z p = of_int (-560) ->
  let q := projectTo2D p cX cY (of_int 8) mX mY in
  non_finite (x q) = true /\ non_finite (y q) = true /\
  to_int (x q) = None /\ to_int (y q) = None /\
  forall (fuel : nat) (e : Engine.RenderingEngine float) (hdc : HDC)
         (tri : triangle float),
    In p [p1 tri; p2 tri; p3 tri] ->
    Engine.paint_triangle fuel e hdc tri = None.
Proof.
  intros Hz q.
  destruct (projection_non_finite p cX cY mX mY Hz) as [Hx Hy].
  repeat split; try assumption.
  - apply non_finite_cast, Hx.
  - apply non_finite_cast, Hy.
  - intros fuel e hdc tri Hin; unfold Engine.paint_triangle.
    apply DrawTriangle_undefined.
    destruct Hin as [<- | [<- | [<- | [] ] ] ];
      [left | right; left | right; right];
      apply non_finite_cast;
      apply (projection_non_finite _ (Engine.centerX e) (Engine.centerY e)
               (Engine.moveX e) (Engine.moveY e) Hz).
Qed.

Lemma projection_plane_undefined_witness :
  let p := Vec3d (of_int 3) (of_int 4) (of_int (-560)) in
  z p = of_int (-560) /\
  to_int (x (projectTo2D p 400 300 (of_int 8) zero zero)) = None.
Proof.
  intros p; split; [reflexivity | ].
  exact (proj1 (proj2 (proj2
           (projection_plane_undefined p 400%Z 300%Z zero zero eq_refl)))).
Defined.

Local Open Scope Z_scope.

Lemma DrawLine_point (fuel : nat) (hdc : HDC) (x y : Z) (color : COLORREF) :
  DrawLine (S fuel) hdc x y x y color = Some (hdc ++ [(x, y, color)]).
Proof.
  unfold DrawLine; rewrite !Z.sub_diag.
  change (int 0) with (Some 0); cbn [obind Z.abs Z.opp Z.add].
  change (int 0) with (Some 0); cbn [obind DrawLine_loop].
  now rewrite !Z.eqb_refl.
Qed.

Lemma fov_times_8_nonzero : nonzero_number (fov * of_int 8)%fl = true.
Proof. reflexivity. Qed.

(** The projection of a zero vector, cast to [int], at the scale of the
    redraw and without camera offset. *)
Lemma origin_pixel (cX cY : Z) :
  Z.abs cX <= 2 ^ 24 -> Z.abs cY <= 2 ^ 24 ->
  let q := projectTo2D (Vec3d zero zero zero) cX cY (of_int 8) zero zero in
  to_int (x q) = Some cX /\ to_int (y q) = Some cY.
Proof.
  intros HX HY q; subst q.
  rewrite projectTo2D_unfold; cbn [x y z].
  change (of_int 70) with (fov (F := float)).
  change (of_int 16 / of_int 9)%fl with (aspectRatio (F := float)).
  unfold zero.
  change (@fmul float ops (@fdiv float ops (S754_zero false)
            (@fadd float ops (@of_int float ops 1%Z)
               (@fdiv float ops (S754_zero false)
                  (@fmul float ops (@fov float ops) (@of_int float ops 8%Z)))))
            (@aspectRatio float ops))
    with (S754_zero false).
  cbn [to_int cast].
  change (of_int cX) with (float_of_int cX).
  change (of_int cY) with (float_of_int cY).
  split.
  - rewrite <- (int_of_float_of_int cX HX).
    apply int_of_float_feq, feq_fadd_zero, fadd_zero_feq, float_of_int_not_nan.
  - rewrite <- (int_of_float_of_int cY HY).
    apply int_of_float_feq, feq_fadd_zero, fsub_zero_feq, float_of_int_not_nan.
Qed.

(** X6: in binary32, with no camera offset and a screen centre within
    [2 ^ 24], the redraw of a triangle whose three corners are the origin
    makes exactly three [SetPixel] calls, all at [(centerX, centerY)] and
    in the color [RGB(0, 0, 255)]: the origin of the model is drawn at the
    centre of the window. *)
Theorem paint_origin_triangle (fuel : nat) (e : Engine.RenderingEngine float)
    (hdc : HDC) (tri : triangle float) :
  Engine.moveX e = zero -> Engine.moveY e = zero ->
  Z.abs (Engine.centerX e) <= 2 ^ 24 -> Z.abs (Engine.centerY e) <= 2 ^ 24 ->
  p1 tri = Vec3d zero zero zero -> p2 tri = Vec3d zero zero zero ->
  p3 tri = Vec3d zero zero zero ->
  Engine.paint_triangle (S fuel) e hdc tri
  = Some (hdc ++ [(Engine.centerX e, Engine.centerY e, RGB 0 0 255);
                  (Engine.centerX e, Engine.centerY e, RGB 0 0 255);
                  (Engine.centerX e, Engine.centerY e, RGB 0 0 255)]).
Proof.
  intros HmX HmY HX HY H1 H2 H3.
  unfold Engine.paint_triangle; cbv zeta; rewrite HmX, HmY, H1, H2, H3.
  destruct (origin_pixel (Engine.centerX e) (Engine.centerY e) HX HY)
    as [Hx Hy].
  unfold Engine.DrawTriangle.
  rewrite Hx, Hy; cbn [obind].
  repeat (rewrite DrawLine_point; cbn [obind]).
  now rewrite <- !app_assoc.
Qed.

Lemma paint_origin_triangle_witness :
  let e := Engine.RenderingEngine_new (F := float) 800 600 in
  let o := Vec3d zero zero zero in
  Engine.moveX e = zero /\ Z.abs (Engine.centerX e) <= 2 ^ 24 /\
  Engine.paint_triangle 1 e [] (Triangle o o o)
  = Some [(400, 300, RGB 0 0 255); (400, 300, RGB 0 0 255);
          (400, 300, RGB 0 0 255)].
Proof.
  intros e o.
  assert (HX : Z.abs (Engine.centerX e) <= 2 ^ 24) by (vm_compute; discriminate).
  assert (HY : Z.abs (Engine.centerY e) <= 2 ^ 24) by (vm_compute; discriminate).
  split; [reflexivity | split; [exact HX | ] ].
  exact (@paint_origin_triangle 0 e [] (Triangle o o o)
           eq_refl eq_refl HX HY eq_refl eq_refl eq_refl).
Defined.

End Binary32Paint.

(** ** binary32: vertices of a Sphere of large radius *)

Module Binary32Sphere.
Import Binary32 Binary32Aux.






(** The angles of [generateVertices] in binary32: at the first step the
    angle is [+0]; the polar angle of the last step is the float nearest
    to pi, that of the middle step half of it, and the azimuth of the
    last step twice as much; with no step at all the first polar angle is
    [0.0 / 0.0], a NaN. *)
Lemma angles_binary32 :
  polar 0 4 = zero /\ azimuth 0 4 = zero /\
  polar 4 4 = S754_finite false 13176795 (-22) /\
  polar 2 4 = S754_finite false 13176795 (-23) /\
  azimuth 4 4 = S754_finite false 13176795 (-21) /\
  polar 0 0 = S754_nan.
Proof. repeat split; vm_compute; reflexivity. Qed.



End Binary32Sphere.

(** ** binary32: the rotation by the angle 0 *)

Module Binary32Rotate.
Import Binary32 Binary32Facts Binary32Aux Binary32CastFacts.

Local Open Scope Z_scope.

Lemma one_binary32 : float_of_int 1 = S754_finite false 8388608 (-23).
Proof. reflexivity. Qed.

Lemma zero_binary32 : float_of_int 0 = S754_zero false.
Proof. reflexivity. Qed.

(** A canonical mantissa followed by 23 zeros is rounded to itself. *)
Lemma binary_round_aux_shifted (s : bool) (m : positive) (e : Z) :
  bounded prec emax m e = true ->
  binary_round_aux prec emax s (Z.pos (Pos.iter xO m 23)) (e + -23) loc_Exact
  = S754_finite s m e.
Proof.
  intros Hb; apply andb_prop in Hb as [Hcan Hle].
  unfold canonical_mantissa in Hcan; apply Z.eqb_eq in Hcan.
  assert (Hshift : fexp prec emax (Zdigits2 (Z.pos (Pos.iter xO m 23))
                                   + (e + -23)) - (e + -23) = 23).
  { cbn [Zdigits2]; rewrite iter_xO_digits.
    replace (Z.pos (digits2_pos m) + 23 + (e + -23))
      with (Z.pos (digits2_pos m) + e) by lia.
    rewrite Hcan; lia. }
  unfold binary_round_aux, shr_fexp.
  rewrite Hshift; cbn [shr shr_record_of_loc].
  change (iter_pos shr_1 23
            {| shr_m := Z.pos (Pos.iter xO m 23);
               shr_r := false; shr_s := false |})
    with {| shr_m := Z.pos m; shr_r := false; shr_s := false |}.
  cbn [shr_m loc_of_shr_record round_nearest_even].
  replace (e + -23 + 23) with e by lia.
  cbn [Zdigits2]; rewrite Hcan, Z.sub_diag.
  cbn [shr shr_record_of_loc shr_m].
  now rewrite Hle.
Qed.

Lemma mul_one (a : float) :
  finite_valid a = true -> (a * float_of_int 1)%fl = a.
Proof.
  rewrite one_binary32; destruct a as [s | s | | s m e]; try discriminate.
  - intros _; destruct s; reflexivity.
  - cbn [finite_valid]; intros Hb.
    cbn [fmul ops SFmul].
    replace (m * 8388608)%positive with (Pos.iter xO m 23)
      by (rewrite Pos.mul_comm; reflexivity).
    rewrite (binary_round_aux_shifted _ _ _ Hb).
    destruct s; reflexivity.
Qed.

Lemma mul_zero (a : float) :
  finite_valid a = true -> exists s, (a * float_of_int 0)%fl = S754_zero s.
Proof.
  rewrite zero_binary32; destruct a as [s | s | | s m e]; try discriminate;
    intros _; eexists; reflexivity.
Qed.

Lemma finite_valid_neg (a : float) :
  finite_valid a = true -> finite_valid (- a)%fl = true.
Proof. destruct a; try discriminate; trivial. Qed.

Lemma same_number_refl (a : float) : finite_valid a = true -> same_number a a.
Proof. intros Ha; repeat split; auto. Qed.

Lemma zeros_same (s s' : bool) : same_number (S754_zero s) (S754_zero s').
Proof. repeat split; left; eauto. Qed.

Lemma same_number_trans (a b c : float) :
  same_number a b -> same_number b c -> same_number a c.
Proof.
  intros (Ha & Hb & [(s & s' & -> & ->) | ->])
         (_ & Hc & [(t & t' & E & ->) | <-]);
    repeat split; try assumption; try discriminate E; eauto.
Qed.

(** The C++ comparison [==] holds between equal numbers. *)
Lemma same_number_feq (a b : float) : same_number a b -> feq a b = true.
Proof.
  intros (Ha & Hb & [(s & s' & -> & ->) | ->]); [reflexivity | ].
  apply feq_refl; destruct b; discriminate.
Qed.

Lemma sub_zero_same (p : float) (s : bool) :
  finite_valid p = true -> same_number (p - S754_zero s)%fl p.
Proof.
  intros Hp; destruct p as [sp | sp | | sp m e]; try discriminate.
  - destruct sp, s; exact (zeros_same _ _).
  - apply same_number_refl, Hp.
Qed.

Lemma add_zero_same (p : float) (s : bool) :
  finite_valid p = true -> same_number (p + S754_zero s)%fl p.
Proof.
  intros Hp; destruct p as [sp | sp | | sp m e]; try discriminate.
  - destruct sp, s; exact (zeros_same _ _).
  - apply same_number_refl, Hp.
Qed.

Lemma zero_add_same (p : float) (s : bool) :
  finite_valid p = true -> same_number (S754_zero s + p)%fl p.
Proof.
  intros Hp; destruct p as [sp | sp | | sp m e]; try discriminate.
  - destruct sp, s; exact (zeros_same _ _).
  - apply same_number_refl, Hp.
Qed.

(** The four shapes of the assignments of [rotate], with [cos = 1] and
    [sin = 0]. *)
Lemma keep_minus (p q : float) :
  finite_valid p = true -> finite_valid q = true ->
  same_number (p * float_of_int 1 - q * float_of_int 0)%fl p.
Proof.
  intros Hp Hq; rewrite (mul_one _ Hp).
  destruct (mul_zero _ Hq) as [s ->]; now apply sub_zero_same.
Qed.

Lemma keep_plus (p q : float) :
  finite_valid p = true -> finite_valid q = true ->
  same_number (p * float_of_int 1 + q * float_of_int 0)%fl p.
Proof.
  intros Hp Hq; rewrite (mul_one _ Hp).
  destruct (mul_zero _ Hq) as [s ->]; now apply add_zero_same.
Qed.

Lemma keep_second (p q : float) :
  finite_valid p = true -> finite_valid q = true ->
  same_number (p * float_of_int 0 + q * float_of_int 1)%fl q.
Proof.
  intros Hp Hq; rewrite (mul_one _ Hq).
  destruct (mul_zero _ Hp) as [s ->]; now apply zero_add_same.
Qed.

(** With [cos = 1] and [sin = 0] the body of the loop of [rotate] leaves a
    vertex of finite coordinates equal to itself. *)
Lemma rotate_vertex_identity (v : vec3d float) :
  finite_valid (x v) = true -> finite_valid (y v) = true ->
  finite_valid (z v) = true ->
  let v' := rotate_vertex (float_of_int 1) (float_of_int 0)
              (float_of_int 1) (float_of_int 0)
              (float_of_int 1) (float_of_int 0) v in
  same_number (x v') (x v) /\ same_number (y v') (y v) /\
  same_number (z v') (z v).
Proof.
  intros Hx Hy Hz; unfold rotate_vertex; cbn [x y z].
  pose proof (keep_minus _ _ Hy Hz) as Hy1.
  pose proof (keep_second _ _ Hy Hz) as Hz1.
  set (y1 := (y v * float_of_int 1 - z v * float_of_int 0)%fl) in *.
  set (z1 := (y v * float_of_int 0 + z v * float_of_int 1)%fl) in *.
  pose proof (keep_plus _ _ Hx (proj1 Hz1)) as Hx2.
  pose proof (keep_second _ _ (finite_valid_neg _ Hx) (proj1 Hz1)) as Hz2.
  set (x2 := (x v * float_of_int 1 + z1 * float_of_int 0)%fl) in *.
  set (z2 := (- x v * float_of_int 0 + z1 * float_of_int 1)%fl) in *.
  pose proof (keep_minus _ _ (proj1 Hx2) (proj1 Hy1)) as Hx3.
  pose proof (keep_second _ _ (proj1 Hx2) (proj1 Hy1)) as Hy3.
  split; [ | split]; eapply same_number_trans; eassumption.
Qed.

End Binary32Rotate.

(** ** Sphere: what a sequence of rotate calls leaves *)

Section RotateCompounds.
Import Binary32 Binary32Aux.

(** C4 (amended): on every Sphere, in any state its public members can
    bring it to, [rotate(aX, aY, aZ)] completes and leaves each vertex of
    the buffer as it was BEFORE the call, rotated about X by [aX], then
    about Y by [aY], then about Z by [aZ], every operation being the one
    of the arithmetic; hence after a sequence of calls on a constructed
    Sphere (the step counts being such that the constructor completes)
    the buffer is the originally generated one transformed by the
    rotations of all the calls, one after the other (the angles of a call
    act on the current pose).  In binary32, with [cos(0) = 1] and
    [sin(0) = 0], [rotate(0, 0, 0)] leaves every coordinate of every
    vertex of finite coordinates equal to what it was (the same number,
    or a zero for a zero). *)
Theorem rotate_compounds :
  (forall (F : Type) (ops : FloatOps F) (trig : TrigOps F)
          (dbl : DoubleOps F) (s : Sphere F) (aX aY aZ : F),
     public_state s ->
     exists s', rotate s aX aY aZ = Some s' /\
                vertices s' = map (rotXYZ aX aY aZ) (vertices s)) /\
  (forall (F : Type) (ops : FloatOps F) (trig : TrigOps F)
          (dbl : DoubleOps F) (r : F) (L N : Z) (calls : list (F * F * F)),
     constructible L N ->
     exists s0 s',
       Sphere_new r L N = Some s0 /\
       rotate_calls s0 calls = Some s' /\
       vertices s' = map (compose_rotations calls) (vertices s0)) /\
  (forall (trig : TrigOps float) (s : Sphere float),
     fcos (float_of_int 0) = float_of_int 1 ->
     fsin (float_of_int 0) = float_of_int 0 ->
     public_state s ->
     exists s',
       rotate s (float_of_int 0) (float_of_int 0) (float_of_int 0) = Some s' /\
       length (vertices s') = length (vertices s) /\
       forall (i : nat) (v v' : vec3d float),
         nth_error (vertices s) i = Some v ->
         nth_error (vertices s') i = Some v' ->
         finite_valid (x v) = true -> finite_valid (y v) = true ->
         finite_valid (z v) = true ->
         same_number (x v') (x v) /\ same_number (y v') (y v) /\
         same_number (z v') (z v)).
Proof.
  split; [ | split].
  - intros F ops trig dbl s aX aY aZ Hs.
    destruct (@rotate_map F ops trig s aX aY aZ (public_state_well_sized Hs))
      as (s' & Hrot & _ & Hv); eauto.
  - intros F ops trig dbl r L N calls Hc.
    destruct (Sphere_new_total r Hc) as [s0 Hnew].
    destruct (@rotate_calls_map F ops trig calls s0
                (Sphere_new_well_sized _ _ _ Hnew))
      as (s' & Hcalls & _ & Hv).
    eauto.
  - intros trig s Hcos Hsin Hs.
    destruct (@rotate_map float ops trig s (float_of_int 0) (float_of_int 0)
                (float_of_int 0) (public_state_well_sized Hs))
      as (s' & Hrot & _ & Hv).
    exists s'; split; [exact Hrot | ]; rewrite Hv; split.
    + apply length_map.
    + intros i v v' Hi Hi' Hx Hy Hz.
      rewrite nth_error_map, Hi in Hi'; cbn [option_map] in Hi'.
      injection Hi' as <-.
      change (float_of_int 0) with (S754_zero false) in Hcos, Hsin.
      rewrite <- rotate_vertex_rotXYZ, Hcos, Hsin.
      apply Binary32Rotate.rotate_vertex_identity; assumption.
Qed.

Lemma rotate_compounds_witness :
  exists s : Sphere float,
    public_state (H0 := Binary32Trig.stand_in) s /\
    exists s',
      rotate (H0 := Binary32Trig.stand_in) s
        (float_of_int 0) (float_of_int 0) (float_of_int 0) = Some s' /\
      length (vertices s') = length (vertices s) /\
      forall (i : nat) (v v' : vec3d float),
        nth_error (vertices s) i = Some v ->
        nth_error (vertices s') i = Some v' ->
        finite_valid (x v) = true -> finite_valid (y v) = true ->
        finite_valid (z v) = true ->
        same_number (x v') (x v) /\ same_number (y v') (y v) /\
        same_number (z v') (z v).
Proof.
  destruct (Sphere_new_total (H0 := Binary32Trig.stand_in)
              (float_of_int 1) constructible_1_1) as [s Hnew].
  assert (Hs : public_state (H0 := Binary32Trig.stand_in) s)
    by (eapply public_new; exact Hnew).
  exists s; split; [exact Hs | ].
  exact (proj2 (proj2 rotate_compounds) Binary32Trig.stand_in s
           eq_refl eq_refl Hs).
Defined.

End RotateCompounds.

(** ** The timer tick, for any arithmetic *)

Section TickFacts.
Context {F : Type} `{FloatOps F} `{TrigOps F} `{FloatCmp F}
        {dbl : DoubleOps F} {dtrig : DoubleTrigOps F}.

Lemma store_length {A : Type} (l : list A) (p : nat) (a : A) :
  length (store l p a) = length l.
Proof.
  revert p; induction l as [ | h t IH]; intros [ | p]; simpl; auto.
Qed.

Lemma nth_error_store_same {A : Type} (l : list A) (p : nat) (a : A) :
  (p < length l)%nat -> nth_error (store l p a) p = Some a.
Proof.
  revert p; induction l as [ | h t IH]; intros [ | p] Hp; simpl in *;
    try lia; auto with arith.
Qed.

Lemma nth_error_store_other {A : Type} (l : list A) (p q : nat) (a : A) :
  p <> q -> nth_error (store l p a) q = nth_error l q.
Proof.
  revert p q; induction l as [ | h t IH]; intros [ | p] [ | q] Hpq; simpl;
    try reflexivity; try congruence.
  apply IH; congruence.
Qed.

Lemma Forall_store {A : Type} (P : A -> Prop) (l : list A) (p : nat) (a : A) :
  Forall P l -> P a -> Forall P (store l p a).
Proof.
  intros Hl Ha; revert p; induction Hl as [ | h t Hh Ht IH]; intros [ | p];
    simpl; constructor; auto.
Qed.

Lemma Forall_nth_error {A : Type} (P : A -> Prop) (l : list A) (p : nat) (a : A) :
  Forall P l -> nth_error l p = Some a -> P a.
Proof.
  intros Hl Hp; rewrite Forall_forall in Hl.
  apply Hl; eapply nth_error_In; eassumption.
Qed.

Lemma iter_shift {A : Type} (f : A -> A) (n : nat) (a : A) :
  Nat.iter n f (f a) = Nat.iter (S n) f a.
Proof. induction n as [ | n IH]; simpl; [reflexivity | now rewrite IH]. Qed.

(** The loop over the pointers: every pointer met rotates its Sphere once
    more. *)
Lemma rotate_objects_spec (aX aY aZ : F) (objs : list nat) :
  forall heap : Engine.Heap F,
    Forall public_state heap ->
    Forall (fun p => (p < length heap)%nat) objs ->
    exists heap',
      Engine.rotate_objects objs heap aX aY aZ = Some heap' /\
      length heap' = length heap /\
      Forall public_state heap' /\
      forall p s,
        nth_error heap p = Some s ->
        exists s',
          nth_error heap' p = Some s' /\
          vertices s'
          = Nat.iter (count_occ Nat.eq_dec objs p)
              (rotate_vertices aX aY aZ) (vertices s) /\
          (In p objs ->
           index_triangles (vertices s') (latitudeSteps s') (longitudeSteps s')
           = Some (getTriangles s')) /\
          (~ In p objs -> s' = s).
Proof.
  induction objs as [ | obj rest IH]; intros heap Hheap Hptr.
  - exists heap; repeat split; try assumption.
    intros p s Hp; exists s; repeat split; auto; contradiction.
  - apply Forall_cons_iff in Hptr as [Hobj Hrest].
    destruct (nth_error heap obj) as [s0 | ] eqn:Hs0;
      [ | apply nth_error_None in Hs0; lia].
    assert (Hpub0 : public_state s0) by (eapply Forall_nth_error; eassumption).
    destruct (rotate_total aX aY aZ (public_state_well_sized Hpub0))
      as [s0' Hrot].
    assert (Hpub0' : public_state s0') by (eapply public_rotate; eassumption).
    destruct (IH (store heap obj s0')) as (heap' & Hrun & Hlen & Hpub & Hall).
    { apply Forall_store; assumption. }
    { rewrite store_length; assumption. }
    exists heap'; cbn [Engine.rotate_objects]; rewrite Hs0; cbn [obind].
    rewrite Hrot; cbn [obind].
    split; [exact Hrun | ].
    split; [rewrite Hlen; apply store_length | ].
    split; [exact Hpub | ].
    intros p s Hp; cbn [count_occ].
    destruct (Nat.eq_dec obj p) as [-> | Hneq].
    + rewrite Hs0 in Hp; injection Hp as <-.
      destruct (Hall p s0') as (s' & Hs' & Hv & Htri & Hsame).
      { apply nth_error_store_same; assumption. }
      exists s'; split; [exact Hs' | ].
      split; [ | split].
      * rewrite Hv, (rotate_vertices_eq _ _ _ _ Hrot); apply iter_shift.
      * intros _.
        destruct (in_dec Nat.eq_dec p rest) as [Hin | Hout]; [auto | ].
        rewrite (Hsame Hout).
        now apply rotate_fields in Hrot as (_ & _ & _ & ?).
      * intros Hout; exfalso; apply Hout; left; reflexivity.
    + destruct (Hall p s) as (s' & Hs' & Hv & Htri & Hsame).
      { rewrite nth_error_store_other; assumption. }
      exists s'; split; [exact Hs' | ].
      split; [exact Hv | split].
      * intros [Heq | Hin]; [congruence | auto].
      * intros Hout; apply Hsame; intros Hin; apply Hout; right; exact Hin.
Qed.

Lemma tick_spec (e : Engine.RenderingEngine F) (heap : Engine.Heap F) :
  valid_scene e heap ->
  exists e' heap',
    Engine.HandleMessage_WM_TIMER e heap = Some (e', heap') /\
    valid_scene e' heap' /\
    Engine.objects e' = Engine.objects e /\
    Engine.angleX e' = (Engine.angleX e + of_int 1 / of_int 100)%fl /\
    Engine.angleY e' = (Engine.angleY e + of_int 1 / of_int 100)%fl /\
    Engine.angleZ e' = (Engine.angleZ e + of_int 1 / of_int 100)%fl /\
    Engine.degree e' = Engine.advance_degree (Engine.degree e) /\
    length heap' = length heap /\
    forall p s,
      nth_error heap p = Some s ->
      exists s',
        nth_error heap' p = Some s' /\
        vertices s'
        = Nat.iter (count_occ Nat.eq_dec (Engine.objects e) p)
            (rotate_vertices (Engine.angleX e') (Engine.angleY e')
               (Engine.angleZ e'))
            (vertices s) /\
        (In p (Engine.objects e) ->
         index_triangles (vertices s') (latitudeSteps s') (longitudeSteps s')
         = Some (getTriangles s')) /\
        (~ In p (Engine.objects e) -> s' = s).
Proof.
  intros [Hheap Hptr]; unfold Engine.HandleMessage_WM_TIMER.
  destruct (rotate_objects_spec
              (Engine.angleX e + of_int 1 / of_int 100)%fl
              (Engine.angleY e + of_int 1 / of_int 100)%fl
              (Engine.angleZ e + of_int 1 / of_int 100)%fl
              (objs := Engine.objects e) Hheap Hptr)
    as (heap' & Hrun & Hlen & Hpub & Hall).
  rewrite Hrun; cbn [obind].
  eexists; exists heap'; split; [reflexivity | ]; cbn.
  repeat split; try assumption.
  rewrite Hlen; exact Hptr.
Qed.

End TickFacts.

Section TickTheorems.
Context {F : Type} `{FloatOps F} `{TrigOps F} `{FloatCmp F}
        {dbl : DoubleOps F} {dtrig : DoubleTrigOps F}.

(** X7: on a scene whose pointers all point to Spheres of the heap,
    [WM_TIMER] completes: it keeps the list of objects, the size of the
    heap and the validity of the scene, adds [0.01f] to each angle,
    leaves every Sphere no pointer points to as it was, and leaves every
    Sphere pointed to with a triangle list rebuilt from its vertex
    buffer. *)
Theorem tick_keeps_scene (e : Engine.RenderingEngine F) (heap : Engine.Heap F) :
  valid_scene e heap ->
  exists e' heap',
    Engine.HandleMessage_WM_TIMER e heap = Some (e', heap') /\
    valid_scene e' heap' /\
    Engine.objects e' = Engine.objects e /\
    length heap' = length heap /\
    Engine.angleX e' = (Engine.angleX e + of_int 1 / of_int 100)%fl /\
    Engine.angleY e' = (Engine.angleY e + of_int 1 / of_int 100)%fl /\
    Engine.angleZ e' = (Engine.angleZ e + of_int 1 / of_int 100)%fl /\
    (forall p, ~ In p (Engine.objects e) -> nth_error heap' p = nth_error heap p) /\
    (forall p, In p (Engine.objects e) ->
       exists s',
         nth_error heap' p = Some s' /\
         index_triangles (vertices s') (latitudeSteps s') (longitudeSteps s')
         = Some (getTriangles s')).
Proof.
  intros Hvalid.
  destruct (tick_spec Hvalid)
    as (e' & heap' & Hrun & Hvalid' & Hobjs & HaX & HaY & HaZ & _ & Hlen & Hall).
  exists e', heap'; repeat (split; [assumption | ]); split.
  - intros p Hout.
    destruct (nth_error heap p) as [s | ] eqn:Hp.
    + destruct (Hall p s Hp) as (s' & Hs' & _ & _ & Hsame).
      now rewrite Hs', (Hsame Hout).
    + apply nth_error_None; rewrite Hlen; now apply nth_error_None.
  - intros p Hin.
    destruct Hvalid as [_ Hptr]; rewrite Forall_forall in Hptr.
    destruct (nth_error heap p) as [s | ] eqn:Hp;
      [ | apply nth_error_None in Hp; specialize (Hptr p Hin); lia].
    destruct (Hall p s Hp) as (s' & Hs' & _ & Htri & _).
    exists s'; auto.
Qed.

(** X8: a tick rotates a Sphere once for each occurrence of its pointer
    in the list of objects, each time by the new angles and from the pose
    the previous rotation left: an object added twice turns twice per
    tick, an object added once turns once. *)
Theorem tick_rotates_per_pointer (e : Engine.RenderingEngine F)
    (heap : Engine.Heap F) :
  valid_scene e heap ->
  exists e' heap',
    Engine.HandleMessage_WM_TIMER e heap = Some (e', heap') /\
    forall p s,
      nth_error heap p = Some s ->
      exists s',
        nth_error heap' p = Some s' /\
        vertices s'
        = Nat.iter (count_occ Nat.eq_dec (Engine.objects e) p)
            (rotate_vertices (Engine.angleX e') (Engine.angleY e')
               (Engine.angleZ e'))
            (vertices s).
Proof.
  intros Hvalid.
  destruct (tick_spec Hvalid)
    as (e' & heap' & Hrun & _ & _ & _ & _ & _ & _ & _ & Hall).
  exists e', heap'; split; [assumption | ].
  intros p s Hp.
  destruct (Hall p s Hp) as (s' & Hs' & Hv & _).
  exists s'; auto.
Qed.

(** Any number of ticks completes on a valid scene. *)
Lemma ticks_spec (n : nat) :
  forall (e : Engine.RenderingEngine F) (heap : Engine.Heap F),
    valid_scene e heap ->
    exists e' heap',
      Engine.ticks n e heap = Some (e', heap') /\
      valid_scene e' heap' /\
      Engine.objects e' = Engine.objects e /\
      length heap' = length heap /\
      Engine.degree e' = Nat.iter n Engine.advance_degree (Engine.degree e).
Proof.
  induction n as [ | n IH]; intros e heap Hvalid.
  - exists e, heap; split; [reflexivity | split; [assumption | auto] ].
  - destruct (tick_spec Hvalid)
      as (e1 & heap1 & Hrun & Hvalid1 & Hobjs & _ & _ & _ & Hdeg & Hlen & _).
    destruct (IH e1 heap1 Hvalid1) as (e' & heap' & Hrun' & Hv' & Ho' & Hl' & Hd').
    exists e', heap'; cbn [Engine.ticks]; rewrite Hrun; cbn [obind fst snd].
    split; [assumption | split; [assumption | ] ].
    split; [congruence | split; [congruence | ] ].
    rewrite Hd', Hdeg; apply iter_shift.
Qed.

End TickTheorems.

(** ** binary32: the orbit angle *)

Section DegreeCycle.
Import Binary32 Binary32Engine Binary32Aux.
Variable trig : TrigOps float.
Variable dtrig : DoubleTrigOps float.

Local Open Scope Z_scope.

Lemma float_same_eq (a b : float) : float_same a b = true -> a = b.
Proof.
  destruct a as [s | s | | s m e], b as [s' | s' | | s' m' e'];
    cbn [float_same]; try discriminate; try reflexivity; intros Hsame.
  - apply Bool.eqb_prop in Hsame; congruence.
  - apply Bool.eqb_prop in Hsame; congruence.
  - apply andb_prop in Hsame as [Hsame He].
    apply andb_prop in Hsame as [Hs Hm].
    apply Bool.eqb_prop in Hs; apply Pos.eqb_eq in Hm; apply Z.eqb_eq in He.
    congruence.
Qed.

(** One step of the orbit angle, on each multiple of 3 up to 360. *)
Lemma advance_degree_step (k : Z) :
  0 <= k <= 120 ->
  Engine.advance_degree (of_int (3 * k)) = of_int (3 * ((k + 1) mod 121)).
Proof.
  intros Hk.
  assert (Hall : forallb (fun k =>
            float_same (Engine.advance_degree (of_int (3 * k)))
                       (of_int (3 * ((k + 1) mod 121))))
            (zrange 0 121) = true) by (vm_compute; reflexivity).
  rewrite forallb_forall in Hall.
  apply float_same_eq, Hall, zrange_In; lia.
Qed.

Lemma advance_degree_iter (n : nat) :
  Nat.iter n Engine.advance_degree (of_int 0)
  = of_int (3 * (Z.of_nat n mod 121)).
Proof.
  induction n as [ | n IH]; [reflexivity | ].
  change (Nat.iter (S n) Engine.advance_degree (of_int 0))
    with (Engine.advance_degree (Nat.iter n Engine.advance_degree (of_int 0))).
  rewrite IH, advance_degree_step.
  - f_equal; f_equal.
    rewrite Nat2Z.inj_succ, <- Z.add_1_r.
    now rewrite Z.add_mod_idemp_l by lia.
  - pose proof (Z.mod_pos_bound (Z.of_nat n) 121); lia.
Qed.

(** X9: in binary32, whatever [sin] and [cos] are, the orbit angle of an
    engine started at 0 is [3 * (n mod 121)] after [n] ticks: it takes the
    121 values 0, 3, ..., 360 in turn (360 is reached, since it is reset
    only when it exceeds 360), so the orbit has a period of 121 ticks and
    the positions of 0 and 360 degrees are both visited. *)
Theorem degree_cycle (n : nat) (e : Engine.RenderingEngine float)
    (heap : Engine.Heap float) :
  valid_scene e heap -> Engine.degree e = of_int 0 ->
  exists e' heap',
    Engine.ticks n e heap = Some (e', heap') /\
    Engine.degree e' = of_int (3 * (Z.of_nat n mod 121)).
Proof.
  intros Hvalid H0.
  destruct (ticks_spec n Hvalid) as (e' & heap' & Hrun & _ & _ & _ & Hdeg).
  exists e', heap'; split; [exact Hrun | ].
  rewrite Hdeg, H0; apply advance_degree_iter.
Qed.

End DegreeCycle.

Section DegreeCycleWitness.
Import Binary32 Binary32Engine Binary32Trig.

Lemma degree_cycle_witness :
  let e := Engine.RenderingEngine_new (F := float) 800 600 in
  @valid_scene float ops stand_in Binary64.dbl e [] /\ Engine.degree e = of_int 0 /\
  exists e' heap',
    @Engine.ticks float ops stand_in cmp Binary64.dbl double_stand_in 121 e [] = Some (e', heap') /\
    Engine.degree e' = of_int 0.
Proof.
  intros e.
  assert (Hvalid : @valid_scene float ops stand_in Binary64.dbl e [])
    by (split; constructor).
  split; [exact Hvalid | split; [reflexivity | ] ].
  exact (@degree_cycle stand_in double_stand_in 121 e [] Hvalid eq_refl).
Defined.

End DegreeCycleWitness.

(** ** Several ticks, for any arithmetic *)

Section TickSequences.
Context {F : Type} `{FloatOps F} `{TrigOps F} `{FloatCmp F}
        {dbl : DoubleOps F} {dtrig : DoubleTrigOps F}.

Lemma compose_rotations_cons (aX aY aZ : F) (calls : list (F * F * F))
    (v : vec3d F) :
  compose_rotations ((aX, aY, aZ) :: calls) v
  = compose_rotations calls (rotXYZ aX aY aZ v).
Proof. reflexivity. Qed.

Lemma addObjects_fields (objs : list nat) :
  forall e : Engine.RenderingEngine F,
    let e' := fold_left Engine.addObject objs e in
    Engine.objects e' = Engine.objects e ++ objs /\
    Engine.angleX e' = Engine.angleX e /\
    Engine.angleY e' = Engine.angleY e /\
    Engine.angleZ e' = Engine.angleZ e /\
    Engine.r e' = Engine.r e.
Proof.
  induction objs as [ | obj rest IH]; intros e; cbn [fold_left].
  - now rewrite app_nil_r.
  - destruct (IH (Engine.addObject e obj)) as (Ho & HX & HY & HZ & Hr).
    cbv zeta; rewrite Ho, HX, HY, HZ, Hr; cbn.
    now rewrite <- app_assoc.
Qed.

(** Ticks from the angle of the [m]-th tick, on objects pointed to once. *)
Lemma ticks_from (n : nat) :
  forall (m : nat) (e : Engine.RenderingEngine F) (heap : Engine.Heap F),
    valid_scene e heap -> NoDup (Engine.objects e) ->
    Engine.angleX e = Engine.tick_angle m ->
    Engine.angleY e = Engine.tick_angle m ->
    Engine.angleZ e = Engine.tick_angle m ->
    exists e' heap',
      Engine.ticks n e heap = Some (e', heap') /\
      Engine.angleX e' = Engine.tick_angle (m + n) /\
      Engine.angleY e' = Engine.tick_angle (m + n) /\
      Engine.angleZ e' = Engine.tick_angle (m + n) /\
      forall p s,
        In p (Engine.objects e) -> nth_error heap p = Some s ->
        exists s',
          nth_error heap' p = Some s' /\
          vertices s'
          = map (compose_rotations
                   (map (fun k => (Engine.tick_angle k, Engine.tick_angle k,
                                   Engine.tick_angle k))
                      (seq (S m) n)))
              (vertices s).
Proof.
  induction n as [ | n IH]; intros m e heap Hvalid Hnodup HX HY HZ.
  - exists e, heap; rewrite Nat.add_0_r; repeat split; try assumption.
    intros p s _ Hp; exists s; split; [assumption | ].
    cbn [seq map]; unfold compose_rotations; cbn [fold_left].
    now rewrite map_id.
  - destruct (tick_spec Hvalid)
      as (e1 & heap1 & Hrun & Hvalid1 & Hobjs & HX1 & HY1 & HZ1 & _ & _ & Hall).
    rewrite HX in HX1; rewrite HY in HY1; rewrite HZ in HZ1.
    change (Engine.tick_angle m + of_int 1 / of_int 100)%fl
      with (Engine.tick_angle (S m)) in HX1, HY1, HZ1.
    destruct (IH (S m) e1 heap1 Hvalid1) as (e' & heap' & Hrun' & HX' & HY' & HZ' & Hall');
      try assumption; [rewrite Hobjs; assumption | ].
    exists e', heap'; cbn [Engine.ticks]; rewrite Hrun; cbn [obind fst snd].
    replace (m + S n)%nat with (S m + n)%nat by lia.
    repeat (split; [assumption | ]).
    intros p s Hin Hp.
    destruct (Hall p s Hp) as (s1 & Hs1 & Hv1 & _).
    rewrite (proj1 (NoDup_count_occ' Nat.eq_dec (Engine.objects e)) Hnodup p Hin)
      in Hv1.
    cbn [Nat.iter nat_rect] in Hv1.
    rewrite HX1, HY1, HZ1, rotate_vertices_map in Hv1.
    destruct (Hall' p s1) as (s' & Hs' & Hv'); [rewrite Hobjs; exact Hin | exact Hs1 | ].
    exists s'; split; [exact Hs' | ].
    rewrite Hv', Hv1, map_map.
    apply map_ext; intros v.
    cbn [seq map]; now rewrite compose_rotations_cons.
Qed.

(** X10: in any arithmetic, so in that of the code, [n] ticks of a freshly
    constructed engine to which distinct objects were added complete,
    leave each angle at [a_n], where [a_0 = 0] and
    [a_(k+1) = a_k + 0.01f] (a sum of the arithmetic: in binary32 it is
    rounded at each tick), and leave every vertex of every object at its
    position before the first tick rotated by [(a_1, a_1, a_1)], then by
    [(a_2, a_2, a_2)], ..., then by [(a_n, a_n, a_n)]: each tick applies
    the whole accumulated angle to the pose the previous tick left. *)
Theorem ticks_compound (n : nat) (width height : Z) (objs : list nat)
    (heap : Engine.Heap F) :
  NoDup objs -> Forall public_state heap ->
  Forall (fun p => (p < length heap)%nat) objs ->
  let e := fold_left Engine.addObject objs
             (Engine.RenderingEngine_new width height) in
  exists e' heap',
    Engine.ticks n e heap = Some (e', heap') /\
    Engine.angleX e' = Engine.tick_angle n /\
    Engine.angleY e' = Engine.tick_angle n /\
    Engine.angleZ e' = Engine.tick_angle n /\
    forall p s,
      In p objs -> nth_error heap p = Some s ->
      exists s',
        nth_error heap' p = Some s' /\
        vertices s'
        = map (compose_rotations (Engine.tick_angles n)) (vertices s).
Proof.
  intros Hnodup Hheap Hptr e.
  destruct (addObjects_fields objs (Engine.RenderingEngine_new width height))
    as (Ho & HX & HY & HZ & _); fold e in Ho, HX, HY, HZ.
  change (Engine.objects e = objs) in Ho.
  change (Engine.angleX e = Engine.tick_angle 0) in HX.
  change (Engine.angleY e = Engine.tick_angle 0) in HY.
  change (Engine.angleZ e = Engine.tick_angle 0) in HZ.
  destruct (@ticks_from n 0%nat e heap) as (e' & heap' & Hrun & HX' & HY' & HZ' & Hall);
    try assumption.
  { unfold valid_scene; rewrite Ho; split; assumption. }
  { rewrite Ho; assumption. }
  exists e', heap'; cbn [Nat.add] in *.
  repeat (split; [assumption | ]).
  intros p s Hin Hp; apply Hall; [rewrite Ho; exact Hin | exact Hp].
Qed.

End TickSequences.

(** ** Sphere: triangles as copies, and regeneration *)

Section SphereExtras.
Context {F : Type} `{FloatOps F} `{TrigOps F} {dbl : DoubleOps F}.

Local Open Scope Z_scope.

Lemma at_index_In {A : Type} (v : list A) (i : Z) (a : A) :
  at_index v i = Some a -> In a v.
Proof.
  unfold at_index; destruct (i <? 0); [discriminate | apply nth_error_In].
Qed.

Lemma cell_triangles_In (vs : list (vec3d F)) (stride lat lon : Z)
    (t : triangle F) :
  In t (cell_triangles vs stride lat lon) ->
  In (p1 t) vs /\ In (p2 t) vs /\ In (p3 t) vs.
Proof.
  unfold cell_triangles.
  destruct (quad vs stride lat lon []) as [ts | ] eqn:Hq; [ | contradiction].
  unfold quad in Hq.
  repeat match goal with
         | E : obind ?o _ = Some _ |- _ =>
           destruct o eqn:?; cbn [obind] in E; [ | discriminate E]
         end.
  injection Hq as <-.
  repeat match goal with
         | E : at_index _ _ = Some _ |- _ => apply at_index_In in E
         end.
  intros [<- | [<- | [] ] ]; cbn [p1 p2 p3]; auto.
Qed.

Lemma index_triangles_In (s : Sphere F) (ts : list (triangle F)) (t : triangle F) :
  well_sized s ->
  index_triangles (vertices s) (latitudeSteps s) (longitudeSteps s) = Some ts ->
  In t ts ->
  In (p1 t) (vertices s) /\ In (p2 t) (vertices s) /\ In (p3 t) (vertices s).
Proof.
  intros Hs Hts Hin.
  rewrite (index_triangles_well_sized Hs) in Hts; injection Hts as <-.
  apply in_flat_map in Hin as (lat & _ & Hin).
  apply in_flat_map in Hin as (lon & _ & Hin).
  eapply cell_triangles_In; eassumption.
Qed.

Lemma reachable_triangles (s : Sphere F) :
  reachable s ->
  index_triangles (vertices s) (latitudeSteps s) (longitudeSteps s)
  = Some (getTriangles s).
Proof.
  intros [r L N s' Hnew | s0 s' aX aY aZ _ Hrot].
  - apply Sphere_new_inv in Hnew as (s1 & _ & Hidx).
    now apply generateIndices_inv in Hidx as (_ & _ & _ & _ & ?).
  - now apply generateIndices_inv in Hrot as (_ & _ & _ & _ & ?).
Qed.

(** The cells of the triangle list of a Sphere after construction or
    [rotate]. *)
Lemma reachable_cells (s : Sphere F) :
  reachable s -> 1 <= latitudeSteps s -> 1 <= longitudeSteps s ->
  forall lat lon,
    0 <= lat < latitudeSteps s -> 0 <= lon < longitudeSteps s ->
    exists a b c d,
      at_index (vertices s) (lat * (longitudeSteps s + 1) + lon) = Some a /\
      at_index (vertices s) (lat * (longitudeSteps s + 1) + lon
                             + longitudeSteps s + 1) = Some b /\
      at_index (vertices s) (lat * (longitudeSteps s + 1) + lon + 1) = Some c /\
      at_index (vertices s) (lat * (longitudeSteps s + 1) + lon
                             + longitudeSteps s + 1 + 1) = Some d /\
      at_index (getTriangles s) (2 * (lat * longitudeSteps s + lon))
      = Some (Triangle a b c) /\
      at_index (getTriangles s) (2 * (lat * longitudeSteps s + lon) + 1)
      = Some (Triangle b d c).
Proof.
  intros Hreach HL HN lat lon Hlat Hlon.
  destruct (generateIndices_cells (reachable_well_sized Hreach) HL HN)
    as (s' & Hgen & _ & _ & Hcell).
  unfold generateIndices in Hgen.
  rewrite (reachable_triangles Hreach) in Hgen; cbn [obind] in Hgen.
  injection Hgen as <-.
  destruct (Hcell lat lon Hlat Hlon) as (a & b & c & d & Ha & Hb & Hc & Hd & Ht & Ht').
  exists a, b, c, d; repeat split; assumption.
Qed.

(** X13: after construction and after every [rotate], each corner of
    each triangle of [getTriangles] is a copy of an entry of the current
    vertex buffer. *)
Theorem triangle_corners_are_vertices (s : Sphere F) (t : triangle F) :
  reachable s -> In t (getTriangles s) ->
  In (p1 t) (vertices s) /\ In (p2 t) (vertices s) /\ In (p3 t) (vertices s).
Proof.
  intros Hreach Hin.
  eapply index_triangles_In;
    [apply reachable_well_sized, Hreach | apply reachable_triangles, Hreach
    | exact Hin].
Qed.

(** [generateVertices] then [generateIndices], on any Sphere, is the
    constructor on its radius and step counts. *)
Lemma regenerate (s : Sphere F) :
  (s1 <- generateVertices s ;; generateIndices s1)
  = Sphere_new (radius s) (latitudeSteps s) (longitudeSteps s).
Proof.
  unfold Sphere_new.
  set (s0 := MkSphere (radius s) (latitudeSteps s) (longitudeSteps s) [] []).
  assert (Hsame : forall u u' : Sphere F,
            radius u = radius u' -> latitudeSteps u = latitudeSteps u' ->
            longitudeSteps u = longitudeSteps u' ->
            forall v, generateVertices u = Some v ->
            exists v', generateVertices u' = Some v' /\
                       generateIndices v' = generateIndices v).
  { intros u u' Hr HL HN v Hgen.
    destruct (generateVertices_exits _ Hgen) as [HL1 HN1].
    rewrite generateVertices_vertices in Hgen by assumption.
    rewrite generateVertices_vertices by (rewrite <- HL, <- ?HN; assumption).
    injection Hgen as <-; eexists; split; [reflexivity | ].
    unfold generateIndices, set_triangles, set_vertices;
      cbn [vertices latitudeSteps longitudeSteps radius].
    rewrite Hr, HL, HN; reflexivity. }
  destruct (generateVertices s) as [v | ] eqn:Hgen; cbn [obind].
  - destruct (Hsame s s0 eq_refl eq_refl eq_refl v Hgen) as (v' & -> & Hidx).
    cbn [obind]; now rewrite Hidx.
  - destruct (generateVertices s0) as [v0 | ] eqn:Hgen0; [ | reflexivity].
    destruct (Hsame s0 s eq_refl eq_refl eq_refl v0 Hgen0) as (v' & Hgen' & _).
    congruence.
Qed.

Lemma rotate_calls_fields (calls : list (F * F * F)) :
  forall s s' : Sphere F,
    rotate_calls s calls = Some s' ->
    radius s' = radius s /\ latitudeSteps s' = latitudeSteps s /\
    longitudeSteps s' = longitudeSteps s.
Proof.
  induction calls as [ | [[aX aY] aZ] rest IH]; intros s s' Hcalls.
  - injection Hcalls as <-; auto.
  - cbn [rotate_calls] in Hcalls.
    destruct (rotate s aX aY aZ) as [s1 | ] eqn:Hrot; [ | discriminate].
    cbn [obind] in Hcalls.
    apply rotate_fields in Hrot as (Hr & HL & HN & _).
    apply IH in Hcalls as (Hr' & HL' & HN').
    repeat split; congruence.
Qed.

(** X14: whatever rotations a constructed Sphere has gone through,
    [generateVertices] followed by [generateIndices] gives back exactly
    the Sphere as constructed: the vertex buffer is regenerated from the
    radius and the step counts alone, and the pose is lost. *)
Theorem regenerate_restores (r : F) (latSteps lonSteps : Z)
    (calls : list (F * F * F)) (s0 s : Sphere F) :
  Sphere_new r latSteps lonSteps = Some s0 ->
  rotate_calls s0 calls = Some s ->
  exists s1, generateVertices s = Some s1 /\ generateIndices s1 = Some s0.
Proof.
  intros Hnew Hcalls.
  destruct (Sphere_new_fields _ _ _ Hnew) as (Hr & HL & HN).
  destruct (rotate_calls_fields _ _ Hcalls) as (Hr' & HL' & HN').
  pose proof (regenerate s) as Hre.
  rewrite Hr', HL', HN', Hr, HL, HN, Hnew in Hre.
  destruct (generateVertices s) as [s1 | ]; [eauto | discriminate].
Qed.

End SphereExtras.

(** ** Instances: Spheres of 4 by 4 steps, a line and a triangle *)

Section SphereInstances.
Import Binary32.
Local Open Scope Z_scope.

Lemma constructible_4_4 : constructible 4 4.
Proof. unfold constructible, INT_MAX; lia. Qed.


Lemma Sphere_new_degenerate_witness :
  (0 <= 0 \/ 5 <= 0) /\ (0 < INT_MAX /\ (0 <= 0 -> 5 < INT_MAX)) /\
  forall trig : TrigOps float,
    exists s : Sphere float,
      Sphere_new (float_of_int 1) 0 5 = Some s /\ getTriangles s = [].
Proof.
  assert (Hdeg : 0 <= 0 \/ 5 <= 0) by (left; lia).
  assert (Hint : 0 < INT_MAX /\ (0 <= 0 -> 5 < INT_MAX))
    by (unfold INT_MAX; lia).
  split; [exact Hdeg | split; [exact Hint | ] ].
  intros trig.
  exact (proj1 (@Sphere_new_degenerate float ops trig Binary64.dbl (float_of_int 1) 0 5
                  Hdeg) Hint).
Defined.

Lemma generateIndices_in_bounds_witness :
  1 <= 4 /\ (4 + 1) * (4 + 1) <= INT_MAX + 1 /\
  forall trig : TrigOps float,
    exists s : Sphere float,
      generateVertices (MkSphere (float_of_int 1) 4 4 [] []) = Some s /\
      Z.of_nat (length (vertices s)) = (4 + 1) * (4 + 1) /\
      generateIndices s <> None /\
      Sphere_new (float_of_int 1) 4 4 <> None.
Proof.
  assert (H1 : 1 <= 4) by lia.
  assert (Hmax : (4 + 1) * (4 + 1) <= INT_MAX + 1) by (unfold INT_MAX; lia).
  split; [exact H1 | split; [exact Hmax | ] ].
  intros trig.
  destruct (proj1 (@generateIndices_in_bounds float ops trig Binary64.dbl (float_of_int 1)
                     4 4 H1 H1) Hmax)
    as (s & Hgen & Hsize & _ & Hidx & Hnew).
  exists s; split; [exact Hgen | split; [exact Hsize | split; assumption] ].
Defined.

Lemma triangles_follow_vertices_witness :
  constructible 4 4 /\
  forall trig : TrigOps float,
    exists s : Sphere float,
      Sphere_new (float_of_int 1) 4 4 = Some s /\ reachable s /\
      index_triangles (vertices s) (latitudeSteps s) (longitudeSteps s)
      = Some (getTriangles s).
Proof.
  split; [exact constructible_4_4 | ].
  intros trig.
  destruct (proj2 (proj1 (@triangles_follow_vertices float ops trig Binary64.dbl)
                     (float_of_int 1) 4 4) constructible_4_4)
    as [s Hnew].
  assert (Hreach : reachable s) by (eapply reach_new; exact Hnew).
  exists s; split; [exact Hnew | split; [exact Hreach | ] ].
  exact (proj1 (proj2 (@triangles_follow_vertices float ops trig Binary64.dbl) s Hreach)).
Defined.

End SphereInstances.

Section IdealInstances.
Import Ideal IdealEngine.
Local Open Scope R_scope.


(** A unit Sphere of 4 by 4 steps on the heap, added once to an engine of
    800 by 600. *)
Lemma unit_scene :
  exists s : Sphere R,
    Sphere_new 1%R 4%Z 4%Z = Some s /\
    valid_scene (Engine.addObject (Engine.RenderingEngine_new 800%Z 600%Z) 0%nat) [s].
Proof.
  destruct (Sphere_new_total 1%R constructible_4_4) as [s Hnew].
  exists s; split; [exact Hnew | split].
  - constructor; [eapply public_new; exact Hnew | constructor].
  - constructor; [cbn [length]; lia | constructor].
Qed.

Lemma tick_keeps_scene_witness :
  exists (s : Sphere R) e' heap',
    let e := Engine.addObject (Engine.RenderingEngine_new 800%Z 600%Z) 0%nat in
    valid_scene e [s] /\
    Engine.HandleMessage_WM_TIMER e [s] = Some (e', heap') /\
    valid_scene e' heap' /\ length heap' = 1%nat.
Proof.
  destruct unit_scene as (s & _ & Hvalid).
  destruct (tick_keeps_scene Hvalid)
    as (e' & heap' & Hrun & Hvalid' & _ & Hlen & _).
  exists s, e', heap'; cbv zeta.
  split; [exact Hvalid | split; [exact Hrun | split; [exact Hvalid' | exact Hlen] ] ].
Defined.

Lemma tick_rotates_per_pointer_witness :
  exists (s : Sphere R) e' heap',
    let e := Engine.addObject (Engine.RenderingEngine_new 800%Z 600%Z) 0%nat in
    valid_scene e [s] /\
    Engine.HandleMessage_WM_TIMER e [s] = Some (e', heap') /\
    exists s',
      nth_error heap' 0%nat = Some s' /\
      vertices s'
      = rotate_vertices (Engine.angleX e') (Engine.angleY e')
          (Engine.angleZ e') (vertices s).
Proof.
  destruct unit_scene as (s & _ & Hvalid).
  destruct (tick_rotates_per_pointer Hvalid) as (e' & heap' & Hrun & Hall).
  exists s, e', heap'; cbv zeta.
  split; [exact Hvalid | split; [exact Hrun | ] ].
  exact (Hall 0%nat s eq_refl).
Defined.

Lemma triangle_corners_are_vertices_witness :
  exists (s : Sphere R) (t : triangle R),
    reachable s /\ In t (getTriangles s) /\ In (p1 t) (vertices s).
Proof.
  destruct (Sphere_new_total 1%R constructible_4_4) as [s Hnew].
  assert (Hreach : reachable s) by (eapply reach_new; exact Hnew).
  destruct (Sphere_new_fields _ _ _ Hnew) as (_ & HL & HN).
  assert (HL1 : (1 <= latitudeSteps s)%Z) by (rewrite HL; lia).
  assert (HN1 : (1 <= longitudeSteps s)%Z) by (rewrite HN; lia).
  destruct (reachable_cells Hreach HL1 HN1 (lat := 0%Z) (lon := 0%Z))
    as (a & b & c & d & _ & _ & _ & _ & Ht & _); [lia | lia | ].
  apply at_index_In in Ht.
  exists s, (Triangle a b c).
  split; [exact Hreach | split; [exact Ht | ] ].
  exact (proj1 (triangle_corners_are_vertices (Triangle a b c) Hreach Ht)).
Defined.

Lemma regenerate_restores_witness :
  exists s0 s : Sphere R,
    Sphere_new 1%R 4%Z 4%Z = Some s0 /\
    rotate_calls s0 [(1, 2, 3)%R] = Some s /\
    exists s1, generateVertices s = Some s1 /\ generateIndices s1 = Some s0.
Proof.
  destruct (Sphere_new_total 1%R constructible_4_4) as [s0 Hnew].
  destruct (rotate_calls_map [(1, 2, 3)%R]
              (reachable_well_sized (reach_new _ _ _ Hnew)))
    as (s & Hcalls & _).
  exists s0, s; split; [exact Hnew | split; [exact Hcalls | ] ].
  exact (regenerate_restores _ _ _ _ Hnew Hcalls).
Defined.

End IdealInstances.

Section Binary32Scenes.
Import Binary32 Binary32Engine.
Local Open Scope Z_scope.

Lemma DrawLine_pixel_count_witness :
  is_int 0 /\ is_int 5 /\ is_int 3 /\
  3 * Z.max (Z.abs (5 - 0)) (Z.abs (3 - 0)) <= INT_MAX /\
  exists pixels,
    DrawLine (line_fuel 0 0 5 3) [] 0 0 5 3 255 = Some pixels /\
    Z.of_nat (length pixels) = 6.
Proof.
  assert (H0 : is_int 0) by (unfold is_int, INT_MIN, INT_MAX; lia).
  assert (H5 : is_int 5) by (unfold is_int, INT_MIN, INT_MAX; lia).
  assert (H3 : is_int 3) by (unfold is_int, INT_MIN, INT_MAX; lia).
  assert (Hshort : 3 * Z.max (Z.abs (5 - 0)) (Z.abs (3 - 0)) <= INT_MAX)
    by (unfold INT_MAX; lia).
  split; [exact H0 | split; [exact H5 | split; [exact H3 | split; [exact Hshort | ] ] ] ].
  destruct (DrawLine_pixel_count [] 255 H0 H0 H5 H3 Hshort)
    as (pixels & Hrun & Hlen).
  exists pixels; split; [ | exact Hlen].
  rewrite <- (Nat.add_0_r (line_fuel 0 0 5 3)); exact (Hrun 0%nat).
Defined.

Lemma DrawLine_follows_segment_witness :
  is_int 0 /\ is_int 5 /\ is_int 3 /\
  3 * Z.max (Z.abs (5 - 0)) (Z.abs (3 - 0)) <= INT_MAX /\
  exists pixels,
    DrawLine (line_fuel 0 0 5 3) [] 0 0 5 3 255 = Some pixels /\
    forall x y c,
      In (x, y, c) pixels ->
      2 * Z.abs ((5 - 0) * (y - 0) - (3 - 0) * (x - 0))
      <= Z.max (Z.abs (5 - 0)) (Z.abs (3 - 0)).
Proof.
  assert (H0 : is_int 0) by (unfold is_int, INT_MIN, INT_MAX; lia).
  assert (H5 : is_int 5) by (unfold is_int, INT_MIN, INT_MAX; lia).
  assert (H3 : is_int 3) by (unfold is_int, INT_MIN, INT_MAX; lia).
  assert (Hshort : 3 * Z.max (Z.abs (5 - 0)) (Z.abs (3 - 0)) <= INT_MAX)
    by (unfold INT_MAX; lia).
  split; [exact H0 | split; [exact H5 | split; [exact H3 | split; [exact Hshort | ] ] ] ].
  destruct (DrawLine_follows_segment [] 255 H0 H0 H5 H3 Hshort)
    as (pixels & Hrun & Hnear).
  exists pixels; split.
  - rewrite <- (Nat.add_0_r (line_fuel 0 0 5 3)); exact (Hrun 0%nat).
  - intros x y c Hin; exact (proj1 (Hnear x y c Hin)).
Defined.


Lemma ticks_compound_witness :
  NoDup [0%nat] /\
  forall (trig : TrigOps float) (dtrig : DoubleTrigOps float),
    exists (s : Sphere float) e' heap',
      Forall public_state [s] /\
      Forall (fun p => (p < length [s])%nat) [0%nat] /\
      Engine.ticks 2%nat
        (fold_left Engine.addObject [0%nat]
           (Engine.RenderingEngine_new 800 600)) [s]
      = Some (e', heap') /\
      Engine.angleX e' = Engine.tick_angle 2%nat.
Proof.
  assert (Hnodup : NoDup [0%nat])
    by (constructor; [intros [] | constructor]).
  split; [exact Hnodup | ].
  intros trig dtrig.
  destruct (Sphere_new_total (float_of_int 1) constructible_4_4) as [s Hnew].
  assert (Hheap : Forall public_state [s])
    by (constructor; [eapply public_new; exact Hnew | constructor]).
  assert (Hptr : Forall (fun p => (p < length [s])%nat) [0%nat])
    by (constructor; [cbn [length]; lia | constructor]).
  destruct (@ticks_compound float ops trig cmp Binary64.dbl dtrig 2%nat 800 600 [0%nat] [s]
              Hnodup Hheap Hptr)
    as (e' & heap' & Hrun & HX & _).
  exists s, e', heap'.
  split; [exact Hheap | split; [exact Hptr | split; [exact Hrun | exact HX] ] ].
Defined.

End Binary32Scenes.
